(** * Crossword constraint-satisfaction solver

    A shallow embedding of [CrosswordCreator] from
    [src/crossword/generate.py], with the properties of its
    node-consistency, arc-consistency and backtracking phases.

    Python values are modelled as follows.
    - A [dict] is an association list in insertion order (Python dicts
      iterate in insertion order, and [sorted] is stable, so the order is
      observable in [select_unassigned_variable] and in the arc that
      [ac3] dequeues first).
    - A [set] is the list of its elements in iteration order; a set never
      holds an element twice, which the statements below record as
      [NoDup] where they need it.
    - An exception is a [Raise] result; [None] is [option]'s [None].
    - [self.domains] and the assignment dictionaries live in an explicit
      solver state: the domains by value (every domain set is a private
      copy of the word list), the assignment dictionaries in a store
      addressed by references, because [backtrack] hands the very object
      it received back to its caller. *)

From Stdlib Require Import String Ascii.
From stdpp Require Import base list strings.

Local Open Scope string_scope.
Local Open Scope nat_scope.
Local Open Scope list_scope.
#[local] Set Warnings "-clear-no-such-hyp".

(** ** Python primitives *)

Inductive exn : Set :=
  | TypeError | IndexError | KeyError | UnboundLocalError | RecursionError.

Inductive result (A : Type) : Type :=
  | Ok (a : A)
  | Raise (e : exn).
Arguments Ok {A} a.
Arguments Raise {A} e.

Section Dict.
Context {K V : Type} `{EqDecision K}.

(** [d.keys()] and [d.values()], in insertion order. *)
Definition keys (d : list (K * V)) : list K := d.*1.
Definition values (d : list (K * V)) : list V := d.*2.

(** [d[k]]; [None] stands for the [KeyError] of a missing key. *)
Fixpoint dict_get (d : list (K * V)) (k : K) : option V :=
  match d with
  | [] => None
  | (k', v) :: d' => if decide (k = k') then Some v else dict_get d' k
  end.

(** [k in d]. *)
Definition dict_mem (d : list (K * V)) (k : K) : bool :=
  bool_decide (k ∈ keys d).

(** [d[k] = v]: an existing key keeps its position, a new key goes last. *)
Fixpoint dict_set (d : list (K * V)) (k : K) (v : V) : list (K * V) :=
  match d with
  | [] => [(k, v)]
  | (k', v') :: d' =>
      if decide (k = k') then (k, v) :: d' else (k', v') :: dict_set d' k v
  end.
End Dict.

(** [w[k]] on a string; an index past the end raises [IndexError]. *)
Definition str_index (w : string) (k : nat) : result ascii :=
  match String.get k w with
  | Some ch => Ok ch
  | None => Raise IndexError
  end.

(** [sorted(l, key=key)]: a stable sort, here by insertion. *)
Section Sorted.
Context {A : Type} (key : A → nat).

Fixpoint insert_by (x : A) (l : list A) : list A :=
  match l with
  | [] => [x]
  | y :: l' => if key x <=? key y then x :: y :: l' else y :: insert_by x l'
  end.

Fixpoint sorted_by (l : list A) : list A :=
  match l with
  | [] => []
  | x :: l' => insert_by x (sorted_by l')
  end.
End Sorted.

(** ** The puzzle model *)

Inductive Direction : Set := ACROSS | DOWN.

(** A word slot of the grid ([Variable] of the puzzle model). *)
Record Var : Set := mkVar {
  var_i : nat;
  var_j : nat;
  var_direction : Direction;
  var_length : nat
}.

#[global] Instance Direction_eq_dec : EqDecision Direction.
Proof. solve_decision. Defined.
#[global] Instance Var_eq_dec : EqDecision Var.
Proof. solve_decision. Defined.

(** The puzzle is built by the loader, which is not part of the solver's
    source; the solver reads its variable set, its word set and its
    overlap table.  [overlaps c v1 v2 = None] is the table's [None] (no
    shared cell). *)
Record Crossword : Type := mkCrossword {
  variables : list Var;
  words : list string;
  overlaps : Var → Var → option (nat * nat)
}.

(** Modelled from the spec: [Crossword.neighbors], which the solver calls
    and whose code belongs to the puzzle model; it derives all the
    variables that share a cell with [var]. *)
Definition neighbors (c : Crossword) (var : Var) : list Var :=
  filter (λ v, v ≠ var ∧ is_Some (overlaps c var v)) (variables c).

(** ** The solver state and its monad *)

Definition ref := nat.

Record Solver : Type := mkSolver {
  domains : list (Var * list string);
  heap : list (list (Var * string))
}.

Definition M (A : Type) : Type := Solver → result (A * Solver).

Definition ret {A} (a : A) : M A := λ st, Ok (a, st).

Definition bind {A B} (m : M A) (f : A → M B) : M B :=
  λ st, match m st with
        | Ok (a, st') => f a st'
        | Raise e => Raise e
        end.

Definition raise {A} (e : exn) : M A := λ _, Raise e.

(** A computation that raises but does not touch the state. *)
Definition lift {A} (r : result A) : M A :=
  λ st, match r with
        | Ok a => Ok (a, st)
        | Raise e => Raise e
        end.

Declare Scope solver_scope.
Delimit Scope solver_scope with solver.
Notation "x <- m ;; k" := (bind m (λ x, k))
  (at level 100, m at next level, right associativity) : solver_scope.
Notation "m ;;; k" := (bind m (λ _, k))
  (at level 100, right associativity) : solver_scope.
Local Open Scope solver_scope.

Definition get_domains : M (list (Var * list string)) :=
  λ st, Ok (domains st, st).

(** [self.domains[var]]. *)
Definition domain_of (var : Var) : M (list string) :=
  λ st, match dict_get (domains st) var with
        | Some s => Ok (s, st)
        | None => Raise KeyError
        end.

(** [self.domains[var].remove(w)]: [set.remove] raises [KeyError] when the
    element is absent. *)
Definition domain_remove (var : Var) (w : string) : M unit :=
  λ st, match dict_get (domains st) var with
        | None => Raise KeyError
        | Some s =>
            if bool_decide (w ∈ s)
            then Ok (tt, mkSolver
                           (dict_set (domains st) var (filter (λ w', w' ≠ w) s))
                           (heap st))
            else Raise KeyError
        end.

(** The store of assignment dictionaries. *)
Definition deref (r : ref) : M (list (Var * string)) :=
  λ st, match heap st !! r with
        | Some a => Ok (a, st)
        | None => Raise KeyError
        end.

(** [dict()] and [assignment.copy()] create a new object. *)
Definition alloc (a : list (Var * string)) : M ref :=
  λ st, Ok (length (heap st), mkSolver (domains st) (heap st ++ [a])).

Definition dict_copy (r : ref) : M ref :=
  a <- deref r ;; alloc a.

(** [d[var] = value] on the object behind [r]. *)
Definition dict_setitem (r : ref) (var : Var) (value : string) : M unit :=
  λ st, match heap st !! r with
        | Some a => Ok (tt, mkSolver (domains st)
                                     (<[r := dict_set a var value]> (heap st)))
        | None => Raise KeyError
        end.

Fixpoint for_each {A} (l : list A) (body : A → M unit) : M unit :=
  match l with
  | [] => ret tt
  | x :: l' => body x ;;; for_each l' body
  end.

(** ** CrosswordCreator *)

Section CrosswordCreator.
Variable c : Crossword.

(** [__init__]: every variable starts with a copy of the whole word set. *)
Definition init : Solver :=
  mkSolver (map (λ var, (var, words c)) (variables c)) [].

(** [enforce_node_consistency] *)
Definition enforce_node_consistency : M unit :=
  deepcopy_domain <- get_domains ;;
  for_each (keys deepcopy_domain) (λ var,
    let leng := var_length var in
    match dict_get deepcopy_domain var with
    | None => raise KeyError
    | Some ws =>
        for_each ws (λ words,
          if bool_decide (String.length words ≠ leng)
          then domain_remove var words
          else ret tt)
    end).

(** The inner loop of [revise]: does some word of [domain(y)] agree with
    [word_x] at the overlap?  [true] is the [break] with [match = True]. *)
Fixpoint find_match (word_x : string) (overlap_x overlap_y : nat)
    (ys : list string) : result bool :=
  match ys with
  | [] => Ok false
  | word_y :: ys' =>
      match str_index word_x overlap_x with
      | Raise e => Raise e
      | Ok cx =>
          match str_index word_y overlap_y with
          | Raise e => Raise e
          | Ok cy =>
              if bool_decide (cx = cy) then Ok true
              else find_match word_x overlap_x overlap_y ys'
          end
      end
  end.

(** The outer loop of [revise], over the copied [domain(x)]. *)
Fixpoint revise_loop (x y : Var) (overlap_x overlap_y : nat)
    (ws : list string) (revision : bool) : M bool :=
  match ws with
  | [] => ret revision
  | word_x :: ws' =>
      ys <- domain_of y ;;
      found <- lift (find_match word_x overlap_x overlap_y ys) ;;
      if (found : bool) then revise_loop x y overlap_x overlap_y ws' revision
      else domain_remove x word_x ;;;
           revise_loop x y overlap_x overlap_y ws' true
  end.

(** [revise(x, y)].  The first statement unpacks [overlaps[x, y]], which
    raises [TypeError] on [None]; [if overlap_x:] is false for index 0. *)
Definition revise (x y : Var) : M bool :=
  match overlaps c x y with
  | None => raise TypeError
  | Some (overlap_x, overlap_y) =>
      copy_domain <- get_domains ;;
      if bool_decide (overlap_x ≠ 0) then
        match dict_get copy_domain x with
        | None => raise KeyError
        | Some ws => revise_loop x y overlap_x overlap_y ws false
        end
      else ret false
  end.

(** The worklist [ac3] builds when [arcs] is falsy. *)
Definition initial_arcs (ds : list (Var * list string)) : list (Var * Var) :=
  flat_map (λ var1,
    map (λ var2, (var1, var2))
        (filter (λ var2, is_Some (overlaps c var1 var2)) (neighbors c var1)))
    (keys ds).

(** [not arcs]: true for [None] and for the empty list. *)
Definition falsy (arcs : option (list (Var * Var))) : bool :=
  match arcs with
  | None | Some [] => true
  | Some (_ :: _) => false
  end.

(** [ac3(arcs)].  The local [queue] is bound only in the [if not arcs]
    branch; [None] below is the unbound local.  The body of the [while]
    ends in [return True], so at most one arc is dequeued; the result is
    [Some true], [Some false], or [None] when the loop is not entered. *)
Definition ac3 (arcs : option (list (Var * Var))) : M (option bool) :=
  queue <- (if falsy arcs
            then ds <- get_domains ;; ret (Some (initial_arcs ds))
            else ret None) ;;
  match queue with
  | None => raise UnboundLocalError
  | Some [] => ret None
  | Some ((x, y) :: queue') =>
      revised <- revise x y ;;
      if (revised : bool) then
        dx <- domain_of x ;;
        if length dx =? 0 then ret (Some false)
        else
          let queue'' :=
            queue' ++ map (λ neighbour, (neighbour, x))
                          (filter (λ neighbour, neighbour ≠ y) (neighbors c x)) in
          ret (Some true)
      else ret (Some true)
  end.

(** The innermost loop of [consistent]: the neighbours [ns] of [var]. *)
Fixpoint check_neighbors (assignment : list (Var * string)) (var : Var)
    (ns : list Var) : result bool :=
  match ns with
  | [] => Ok true
  | n :: ns' =>
      if dict_mem assignment n then
        match overlaps c var n with
        | None => Raise TypeError
        | Some (x, y) =>
            match dict_get assignment var, dict_get assignment n with
            | Some wv, Some wn =>
                match str_index wv x with
                | Raise e => Raise e
                | Ok cx =>
                    match str_index wn y with
                    | Raise e => Raise e
                    | Ok cy =>
                        if bool_decide (cx ≠ cy) then Ok false
                        else check_neighbors assignment var ns'
                    end
                end
            | _, _ => Raise KeyError
            end
        end
      else check_neighbors assignment var ns'
  end.

Fixpoint check_overlaps (assignment : list (Var * string))
    (vars : list Var) : result bool :=
  match vars with
  | [] => Ok true
  | var :: vars' =>
      match check_neighbors assignment var (neighbors c var) with
      | Raise e => Raise e
      | Ok false => Ok false
      | Ok true => check_overlaps assignment vars'
      end
  end.

(** [consistent(assignment)] *)
Definition consistent (assignment : list (Var * string)) : result bool :=
  let word := values assignment in
  if bool_decide (length word ≠ length (remove_dups word)) then Ok false
  else if negb (forallb (λ item : Var * string,
                   bool_decide (var_length item.1 = String.length item.2))
                 assignment)
  then Ok false
  else check_overlaps assignment (keys assignment).

(** The number of words of [domain(n)] that differ from [words] at the
    overlap, added to [removed]. *)
Fixpoint count_ruled_out (words : string) (overlap_x overlap_y : nat)
    (ns : list string) (removed : nat) : result nat :=
  match ns with
  | [] => Ok removed
  | n_word :: ns' =>
      match str_index words overlap_x with
      | Raise e => Raise e
      | Ok cx =>
          match str_index n_word overlap_y with
          | Raise e => Raise e
          | Ok cy =>
              count_ruled_out words overlap_x overlap_y ns'
                (if bool_decide (cx ≠ cy) then removed + 1 else removed)
          end
      end
  end.

Fixpoint count_neighbours (assignment : list (Var * string)) (var : Var)
    (words : string) (neighbours : list Var) (removed : nat) : M nat :=
  match neighbours with
  | [] => ret removed
  | n :: ns' =>
      if dict_mem assignment n
      then count_neighbours assignment var words ns' removed
      else
        match overlaps c var n with
        | None => raise TypeError
        | Some (overlap_x, overlap_y) =>
            dn <- domain_of n ;;
            removed' <- lift (count_ruled_out words overlap_x overlap_y dn removed) ;;
            count_neighbours assignment var words ns' removed'
        end
  end.

(** [order_domain_values(var, assignment)].  The [return] sits inside the
    loop over the domain, so the loop body runs for the first word only;
    with an empty domain the function falls off its end. *)
Definition order_domain_values (var : Var) (assignment : list (Var * string))
    : M (option (list string)) :=
  let neighbours := neighbors c var in
  dv <- domain_of var ;;
  match dv with
  | [] => ret None
  | words :: _ =>
      removed <- count_neighbours assignment var words neighbours 0 ;;
      let DictWord := dict_set [] words removed in
      let sorted_l :=
        fold_left (λ d (item : string * nat), dict_set d item.1 item.2)
                  (sorted_by (λ item : string * nat, item.2) DictWord) [] in
      ret (Some (keys sorted_l))
  end.

(** [select_unassigned_variable(assignment)].  The keys of [self.domains]
    are distinct, so filling [unassign_var] appends each unassigned
    variable in turn. *)
Definition select_unassigned_variable (assignment : list (Var * string))
    : M Var :=
  ds <- get_domains ;;
  let unassign_var :=
    filter (λ item : Var * list string, dict_mem assignment item.1 = false) ds in
  let sorted_l :=
    map fst (sorted_by (λ item : Var * list string, length item.2) unassign_var) in
  match sorted_l with
  | [] => raise IndexError
  | v :: _ => ret v
  end.

(** The [for value in self.domains[var]] loop of [backtrack]; [rec] is
    the recursive call. *)
Fixpoint backtrack_loop (rec : ref → M (option ref)) (assignment : ref)
    (var : Var) (vals : list string) : M (option ref) :=
  match vals with
  | [] => ret None
  | value :: vals' =>
      copy_assign <- dict_copy assignment ;;
      dict_setitem copy_assign var value ;;;
      a' <- deref copy_assign ;;
      ok <- lift (consistent a') ;;
      if (ok : bool) then
        result <- rec copy_assign ;;
        match result with
        | Some r => ret (Some r)
        | None => backtrack_loop rec assignment var vals'
        end
      else backtrack_loop rec assignment var vals'
  end.

(** [backtrack(assignment)], with a bound on the recursion depth. *)
Fixpoint backtrack (depth : nat) (assignment : ref) : M (option ref) :=
  match depth with
  | 0 => raise RecursionError
  | S depth' =>
      a <- deref assignment ;;
      ds <- get_domains ;;
      if length a =? length ds then ret (Some assignment)
      else
        var <- select_unassigned_variable a ;;
        vals <- domain_of var ;;
        backtrack_loop (backtrack depth') assignment var vals
  end.

(** [solve()]: the search never nests deeper than one call per variable
    plus the call that returns the complete assignment. *)
Definition solve : M (option ref) :=
  enforce_node_consistency ;;;
  _ <- ac3 None ;;
  assignment <- alloc [] ;;
  ds <- get_domains ;;
  backtrack (S (length ds)) assignment.
End CrosswordCreator.

(** ** Vocabulary of the specification *)

(** [st'] is [st] after in-place domain pruning: the same variables, every
    domain a subset of what it was, the assignment store untouched. *)
Definition shrinks (st st' : Solver) : Prop :=
  keys (domains st') = keys (domains st) ∧
  heap st' = heap st ∧
  ∀ v ws', dict_get (domains st') v = Some ws' →
    ∃ ws, dict_get (domains st) v = Some ws ∧ ws' ⊆ ws.

(** Every word left in a domain has the length of its variable. *)
Definition node_consistent (st : Solver) : Prop :=
  ∀ v ws w, dict_get (domains st) v = Some ws → w ∈ ws →
    String.length w = var_length v.

(** The representation invariant of [self.domains]: a dict has distinct
    keys and a set distinct elements. *)
Definition domains_wf (st : Solver) : Prop :=
  NoDup (keys (domains st)) ∧
  ∀ v ws, dict_get (domains st) v = Some ws → NoDup ws.

(** The overlap table of a puzzle holds character indices into the words
    of the two slots, so they lie within the slots' lengths. *)
Definition overlap_in_range (c : Crossword) (v n : Var) : bool :=
  match overlaps c v n with
  | Some (x, y) => (x <? var_length v) && (y <? var_length n)
  | None => true
  end.

(** A puzzle as the loader builds it: its variables and its words are
    sets, and its overlaps are indices into the slots. *)
Definition wf_crossword (c : Crossword) : Prop :=
  NoDup (variables c) ∧
  NoDup (words c) ∧
  Forall (λ v, Forall (λ n, overlap_in_range c v n = true) (variables c))
         (variables c).

(** The assignment gives every variable of the puzzle exactly one word. *)
Definition complete (c : Crossword) (a : list (Var * string)) : Prop :=
  NoDup (keys a) ∧ ∀ v, v ∈ variables c ↔ v ∈ keys a.

(** The constraints of the puzzle on an assignment: distinct words, words
    of the slots' lengths, equal characters where two slots cross. *)
Definition satisfies (c : Crossword) (a : list (Var * string)) : Prop :=
  NoDup (values a) ∧
  (∀ v w, (v, w) ∈ a → String.length w = var_length v) ∧
  (∀ v n wv wn,
      dict_get a v = Some wv → dict_get a n = Some wn → n ∈ neighbors c v →
      ∃ x y ch, overlaps c v n = Some (x, y) ∧
                String.get x wv = Some ch ∧ String.get y wn = Some ch).

(** A solution of the puzzle over its word list. *)
Definition solution (c : Crossword) (a : list (Var * string)) : Prop :=
  complete c a ∧ satisfies c a ∧ ∀ v w, (v, w) ∈ a → w ∈ words c.

(** [st'] is [st] with more assignment dictionaries allocated: the
    domains and every dictionary that existed are as they were. *)
Definition extends (st st' : Solver) : Prop :=
  domains st' = domains st ∧ ∃ h', heap st' = heap st ++ h'.

(** What the search maintains of the assignment it extends: distinct
    keys among the solver's variables, a [True] from [consistent], and
    words taken from the domains. *)
Definition search_inv (c : Crossword) (ds : list (Var * list string))
    (a : list (Var * string)) : Prop :=
  NoDup (keys a) ∧
  keys a ⊆ keys ds ∧
  consistent c a = Ok true ∧
  ∀ v w, (v, w) ∈ a → ∃ ws, dict_get ds v = Some ws ∧ w ∈ ws.

(** A result other than [None] refers to an assignment of the size of
    [self.domains] that the search invariant holds of. *)
Definition returns_solution (c : Crossword) (st : Solver)
    (res : option ref) (st' : Solver) : Prop :=
  ∀ r', res = Some r' →
    ∃ a', heap st' !! r' = Some a' ∧
          search_inv c (domains st) a' ∧
          length a' = length (domains st).

(** ** Example puzzles *)

(** A three-letter slot across and a four-letter slot down that cross at
    the second letter of each:
<<
      #_#
      ___
      #_#
      #_#
>> *)
Definition cross_x : Var := mkVar 1 0 ACROSS 3.
Definition cross_y : Var := mkVar 0 1 DOWN 4.

Definition cross_overlaps (v1 v2 : Var) : option (nat * nat) :=
  if decide (v1 = cross_x ∧ v2 = cross_y) then Some (1, 1)
  else if decide (v1 = cross_y ∧ v2 = cross_x) then Some (1, 1)
  else None.

Definition cross : Crossword :=
  mkCrossword [cross_x; cross_y] ["CAT"; "DOG"; "BALL"; "BIRD"] cross_overlaps.

(** The same grid with its variable set iterated in the other order. *)
Definition cross_rev : Crossword :=
  mkCrossword [cross_y; cross_x] ["CAT"; "DOG"; "BALL"; "BIRD"] cross_overlaps.

(** The same grid with a word list that cannot fill it. *)
Definition cross_unsat : Crossword :=
  mkCrossword [cross_x; cross_y] ["CAT"; "BIRD"] cross_overlaps.

(** The solver of [cross] after node consistency, and after [ac3]. *)
Definition cross_nc : Solver :=
  mkSolver [(cross_x, ["CAT"; "DOG"]); (cross_y, ["BALL"; "BIRD"])] [].
Definition cross_ac : Solver :=
  mkSolver [(cross_x, ["CAT"]); (cross_y, ["BALL"; "BIRD"])] [].
Definition cross_rev_nc : Solver :=
  mkSolver [(cross_y, ["BALL"; "BIRD"]); (cross_x, ["CAT"; "DOG"])] [].
Definition cross_rev_ac : Solver :=
  mkSolver [(cross_y, ["BALL"]); (cross_x, ["CAT"; "DOG"])] [].

(** The solver of [cross] when [solve] has returned. *)
Definition cross_solved : Solver :=
  mkSolver [(cross_x, ["CAT"]); (cross_y, ["BALL"; "BIRD"])]
           [ [];
             [(cross_x, "CAT")];
             [(cross_x, "CAT"); (cross_y, "BALL")] ].

(** Two slots that start in the same corner cell, so that they overlap at
    index 0 of each:
<<
      __
      _#
      _#
>> *)
Definition corner_x : Var := mkVar 0 0 ACROSS 2.
Definition corner_y : Var := mkVar 0 0 DOWN 3.

Definition corner_overlaps (v1 v2 : Var) : option (nat * nat) :=
  if decide (v1 = corner_x ∧ v2 = corner_y) then Some (0, 0)
  else if decide (v1 = corner_y ∧ v2 = corner_x) then Some (0, 0)
  else None.

Definition corner : Crossword :=
  mkCrossword [corner_x; corner_y] ["AB"; "CDE"] corner_overlaps.

Definition corner_nc : Solver :=
  mkSolver [(corner_x, ["AB"]); (corner_y, ["CDE"])] [].

(** Two slots that share no cell:
<<
      __
      ##
      __
>> *)
Definition apart_x : Var := mkVar 0 0 ACROSS 2.
Definition apart_y : Var := mkVar 2 0 ACROSS 2.

Definition apart : Crossword :=
  mkCrossword [apart_x; apart_y] ["AB"; "CD"] (λ _ _, None).

(** ** Further methods of the solver *)

(** [assignment_complete(assignment)]: the loop over [self.domains]
    answers [False] at the first variable without a word. *)
Definition assignment_complete (assignment : list (Var * string)) : M bool :=
  ds <- get_domains ;;
  ret (forallb (λ var, dict_mem assignment var) (keys ds)).

(** ** Further vocabulary *)

(** The words [w] of slot [x] and [w'] of slot [y] carry the same
    character at the overlap [(ox, oy)]. *)
Definition agree (ox oy : nat) (w w' : string) : Prop :=
  ∃ ch, String.get ox w = Some ch ∧ String.get oy w' = Some ch.

(** Every word of the assignment [s] is still in the domain of its
    variable. *)
Definition within (ds : list (Var * list string)) (s : list (Var * string)) : Prop :=
  ∀ v w, (v, w) ∈ s → ∃ ws, dict_get ds v = Some ws ∧ w ∈ ws.

(** ** The letter grid *)

(** [letters[i][j] = ch] on a list of rows; an index past the end of
    either list raises [IndexError]. *)
Definition grid_set (letters : list (list (option ascii))) (i j : nat)
    (ch : ascii) : result (list (list (option ascii))) :=
  match letters !! i with
  | None => Raise IndexError
  | Some row =>
      if decide (j < length row)
      then Ok (<[i := <[j := Some ch]> row]> letters)
      else Raise IndexError
  end.

(** The cell of the [k]-th letter of a slot: [k] rows further down for a
    slot that runs down, [k] columns further right for one that runs
    across. *)
Definition cell (variable : Var) (k : nat) : nat * nat :=
  (var_i variable + (if decide (var_direction variable = DOWN) then k else 0),
   var_j variable + (if decide (var_direction variable = ACROSS) then k else 0)).

(** The loop [for k in range(len(word))] of [letter_grid], over the
    indices [ks]. *)
Fixpoint place_letters (variable : Var) (word : string) (ks : list nat)
    (letters : list (list (option ascii))) : result (list (list (option ascii))) :=
  match ks with
  | [] => Ok letters
  | k :: ks' =>
      match str_index word k with
      | Raise e => Raise e
      | Ok ch =>
          match grid_set letters (cell variable k).1 (cell variable k).2 ch with
          | Raise e => Raise e
          | Ok letters' => place_letters variable word ks' letters'
          end
      end
  end.

(** The loop over [assignment.items()]. *)
Fixpoint place_words (items : list (Var * string))
    (letters : list (list (option ascii))) : result (list (list (option ascii))) :=
  match items with
  | [] => Ok letters
  | (variable, word) :: items' =>
      match place_letters variable word (seq 0 (String.length word)) letters with
      | Raise e => Raise e
      | Ok letters' => place_words items' letters'
      end
  end.

(** [letter_grid(assignment)] for a puzzle of [height] rows and [width]
    columns (the fields [height] and [width] of the puzzle). *)
Definition letter_grid (height width : nat) (assignment : list (Var * string))
    : result (list (list (option ascii))) :=
  place_words assignment (replicate height (replicate width None)).

(** [letters[i][j]], when both indices are in range. *)
Definition letter_at (letters : list (list (option ascii))) (i j : nat)
    : option (option ascii) :=
  match letters !! i with
  | Some row => row !! j
  | None => None
  end.

(** A grid of [height] rows of [width] cells each. *)
Definition has_size (height width : nat) (letters : list (list (option ascii)))
    : Prop :=
  length letters = height ∧ Forall (λ row, length row = width) letters.

(** The assignment puts the letter [ch] into the cell [(i, j)]. *)
Definition writes (a : list (Var * string)) (i j : nat) (ch : ascii) : Prop :=
  ∃ v word k, (v, word) ∈ a ∧ String.get k word = Some ch ∧ cell v k = (i, j).

(** Slots that share a cell carry the same letter there. *)
Definition letters_agree (a : list (Var * string)) : Prop :=
  ∀ i j ch ch', writes a i j ch → writes a i j ch' → ch = ch'.

(** Some slot of the assignment runs over the cell [(i, j)]. *)
Definition covers (a : list (Var * string)) (i j : nat) : Prop :=
  Exists (λ item : Var * string,
            Exists (λ k, cell item.1 k = (i, j)) (seq 0 (String.length item.2)))
         a.

#[global] Instance covers_dec a i j : Decision (covers a i j).
Proof. unfold covers. apply _. Defined.

(** The grid of [cross] filled with CAT across and BALL down. *)
Definition cross_filled : list (Var * string) :=
  [(cross_x, "CAT"); (cross_y, "BALL")].

Definition cross_grid : list (list (option ascii)) :=
  [ [None; Some "B"%char; None];
    [Some "C"%char; Some "A"%char; Some "T"%char];
    [None; Some "L"%char; None];
    [None; Some "L"%char; None] ].

(** ** Facts about the Python primitives *)

Section DictFacts.
Context {K V : Type} `{EqDecision K}.
Implicit Types (d : list (K * V)) (k : K) (v : V).

Lemma dict_get_Some_elem d k v : dict_get d k = Some v → (k, v) ∈ d.
Proof.
  induction d as [|[k' v'] d IH]; simpl; [done|].
  case_decide; intros Hg.
  - simplify_eq. apply elem_of_cons; by left.
  - apply elem_of_cons; right; auto.
Qed.

Lemma dict_get_None d k : dict_get d k = None ↔ k ∉ keys d.
Proof.
  unfold keys. induction d as [|[k' v'] d IH]; simpl.
  - split; [intros _; apply not_elem_of_nil | done].
  - rewrite not_elem_of_cons. case_decide; naive_solver.
Qed.

Lemma dict_get_is_Some d k : is_Some (dict_get d k) ↔ k ∈ keys d.
Proof.
  destruct (dict_get d k) eqn:Hg.
  - split; [intros _ | eauto].
    destruct (decide (k ∈ keys d)) as [|Hn]; [done|].
    apply dict_get_None in Hn. congruence.
  - split; [intros [? ?]; done|]. intros Hin.
    apply dict_get_None in Hg. done.
Qed.

Lemma dict_mem_true d k : dict_mem d k = true ↔ k ∈ keys d.
Proof. unfold dict_mem. by rewrite bool_decide_eq_true. Qed.

Lemma dict_mem_false d k : dict_mem d k = false ↔ k ∉ keys d.
Proof. unfold dict_mem. by rewrite bool_decide_eq_false. Qed.

Lemma elem_dict_get d k v : NoDup (keys d) → (k, v) ∈ d → dict_get d k = Some v.
Proof.
  unfold keys. induction d as [|[k' v'] d IH]; simpl.
  - intros _ Hin. by apply elem_of_nil in Hin.
  - rewrite NoDup_cons, elem_of_cons. intros [Hk Hnd] [Heq|Hin].
    + simplify_eq. by rewrite decide_True.
    + rewrite decide_False; [auto|].
      intros ->. apply Hk. apply list_elem_of_fmap. by exists (k', v).
Qed.

Lemma keys_dict_set_in d k v : k ∈ keys d → keys (dict_set d k v) = keys d.
Proof.
  unfold keys. induction d as [|[k' v'] d IH]; simpl.
  - intros Hin. by apply elem_of_nil in Hin.
  - rewrite elem_of_cons. intros Hin. case_decide; simpl; [by subst|].
    f_equal. apply IH. naive_solver.
Qed.

Lemma dict_set_fresh d k v : k ∉ keys d → dict_set d k v = d ++ [(k, v)].
Proof.
  unfold keys. induction d as [|[k' v'] d IH]; simpl; [done|].
  rewrite not_elem_of_cons. intros [Hne Hk].
  rewrite decide_False by done. by rewrite IH.
Qed.

Lemma dict_get_set_eq d k v : dict_get (dict_set d k v) k = Some v.
Proof.
  induction d as [|[k' v'] d IH]; simpl.
  - by rewrite decide_True.
  - case_decide; simpl.
    + by rewrite decide_True.
    + by rewrite decide_False.
Qed.

Lemma dict_get_set_ne d k k' v : k ≠ k' → dict_get (dict_set d k v) k' = dict_get d k'.
Proof.
  intros Hne. induction d as [|[k0 v0] d IH]; simpl.
  - by rewrite decide_False.
  - destruct (decide (k = k0)) as [->|]; simpl.
    + by rewrite !decide_False.
    + by rewrite IH.
Qed.

Lemma dict_set_same d k v : dict_get d k = Some v → dict_set d k v = d.
Proof.
  induction d as [|[k0 v0] d IH]; simpl; [done|].
  case_decide; intros Hg; [by simplify_eq|]. by rewrite IH.
Qed.

Lemma dict_set_set d k v v' : dict_set (dict_set d k v) k v' = dict_set d k v'.
Proof.
  induction d as [|[k0 v0] d IH]; simpl.
  - by rewrite decide_True.
  - case_decide; simpl.
    + by rewrite decide_True.
    + rewrite decide_False by done. by rewrite IH.
Qed.

Lemma dict_get_app_fresh d k v k' :
  k ∉ keys d → dict_get (d ++ [(k, v)]) k' = if decide (k' = k) then Some v else dict_get d k'.
Proof.
  intros Hk. rewrite <- (dict_set_fresh d k v Hk).
  case_decide; [subst; apply dict_get_set_eq|].
  by apply dict_get_set_ne.
Qed.
End DictFacts.

Lemma get_lt (w : string) (k : nat) :
  k < String.length w → ∃ ch, String.get k w = Some ch.
Proof.
  revert k. induction w as [|a w IH]; simpl; intros k Hk; [lia|].
  destruct k as [|k]; [eauto|]. apply IH. lia.
Qed.

Lemma str_index_Ok (w : string) (k : nat) :
  k < String.length w → ∃ ch, str_index w k = Ok ch.
Proof.
  intros Hk. destruct (get_lt w k Hk) as [ch Hch].
  exists ch. unfold str_index. by rewrite Hch.
Qed.

Section SortedFacts.
Context {A : Type} (key : A → nat).

Lemma insert_by_Permutation (x : A) (l : list A) : insert_by key x l ≡ₚ x :: l.
Proof.
  induction l as [|y l IH]; simpl; [done|].
  destruct (key x <=? key y); [done|].
  rewrite IH. apply Permutation_swap.
Qed.

Lemma sorted_by_Permutation (l : list A) : sorted_by key l ≡ₚ l.
Proof.
  induction l as [|x l IH]; simpl; [done|].
  by rewrite insert_by_Permutation, IH.
Qed.
End SortedFacts.

Lemma remove_dups_length_le {A} `{EqDecision A} (l : list A) :
  length (remove_dups l) ≤ length l.
Proof. induction l; simpl; [done|]. case_decide; simpl; lia. Qed.

Lemma remove_dups_length_NoDup {A} `{EqDecision A} (l : list A) :
  length l = length (remove_dups l) → NoDup l.
Proof.
  induction l as [|x l IH]; simpl; [constructor|].
  case_decide as Hin; simpl; intros Hlen.
  - pose proof (remove_dups_length_le l). lia.
  - constructor; [done|]. apply IH. lia.
Qed.

Lemma NoDup_remove_dups_length {A} `{EqDecision A} (l : list A) :
  NoDup l → length l = length (remove_dups l).
Proof.
  induction 1 as [|x l Hx Hnd IH]; simpl; [done|].
  case_decide; [done|]. simpl. by rewrite IH.
Qed.

(** ** The solver monad *)

Lemma bind_Ok {A B} (m : M A) (f : A → M B) st b st' :
  bind m f st = Ok (b, st') ↔ ∃ a st1, m st = Ok (a, st1) ∧ f a st1 = Ok (b, st').
Proof.
  unfold bind. destruct (m st) as [[a st1]|e].
  - split; [eauto|]. by intros (? & ? & [= <- <-] & ?).
  - split; [done|]. by intros (? & ? & ? & ?).
Qed.

Lemma lift_Ok {A} (r : result A) st a st' :
  lift r st = Ok (a, st') ↔ r = Ok a ∧ st' = st.
Proof. unfold lift. destruct r; naive_solver. Qed.

Lemma domain_of_Ok var st ws st' :
  domain_of var st = Ok (ws, st') ↔ dict_get (domains st) var = Some ws ∧ st' = st.
Proof. unfold domain_of. destruct (dict_get _ _); naive_solver. Qed.

(** ** Pruning only shrinks domains *)

Lemma shrinks_refl st : shrinks st st.
Proof. repeat split. intros v ws Hv. by exists ws. Qed.

Lemma shrinks_trans st1 st2 st3 : shrinks st1 st2 → shrinks st2 st3 → shrinks st1 st3.
Proof.
  intros (Hk1 & Hh1 & Hd1) (Hk2 & Hh2 & Hd2). repeat split; [congruence..|].
  intros v ws3 Hv. destruct (Hd2 v ws3 Hv) as (ws2 & Hv2 & Hs2).
  destruct (Hd1 v ws2 Hv2) as (ws1 & Hv1 & Hs1).
  exists ws1. split; [done|]. by etrans.
Qed.

Lemma domain_remove_Ok var w st u st' :
  domain_remove var w st = Ok (u, st') →
  ∃ s, dict_get (domains st) var = Some s ∧ w ∈ s ∧
       st' = mkSolver (dict_set (domains st) var (filter (λ w', w' ≠ w) s)) (heap st).
Proof.
  unfold domain_remove. destruct (dict_get _ _) as [s|]; [|done].
  case_bool_decide; [|done]. intros [= <- <-]. eauto.
Qed.

Lemma dict_set_shrinks var s s' st :
  dict_get (domains st) var = Some s → s' ⊆ s →
  shrinks st (mkSolver (dict_set (domains st) var s') (heap st)).
Proof.
  intros Hs Hsub. repeat split; simpl.
  - apply keys_dict_set_in, dict_get_is_Some. eauto.
  - intros v ws'. destruct (decide (var = v)) as [->|Hne].
    + rewrite dict_get_set_eq. intros [= <-]. eauto.
    + rewrite dict_get_set_ne by done. intros Hv. by exists ws'.
Qed.

Lemma filter_subseteq {A} (P : A → Prop) `{∀ x, Decision (P x)} (l : list A) :
  filter P l ⊆ l.
Proof. intros x Hx. by apply list_elem_of_filter in Hx as [_ ?]. Qed.

Lemma domain_remove_shrinks var w st u st' :
  domain_remove var w st = Ok (u, st') → shrinks st st'.
Proof.
  intros (s & Hs & _ & ->)%domain_remove_Ok.
  apply dict_set_shrinks with s; [done|]. apply filter_subseteq.
Qed.

Lemma for_each_shrinks {A} (l : list A) (body : A → M unit) :
  (∀ x st u st', body x st = Ok (u, st') → shrinks st st') →
  ∀ st u st', for_each l body st = Ok (u, st') → shrinks st st'.
Proof.
  intros Hbody. induction l as [|x l IH]; simpl; intros st u st'.
  - intros [= <- <-]. apply shrinks_refl.
  - intros (u1 & st1 & H1 & H2)%bind_Ok.
    eapply shrinks_trans; [by eapply Hbody|by eapply IH].
Qed.

Section Pruning.
Variable c : Crossword.

Lemma enforce_node_consistency_shrinks st u st' :
  enforce_node_consistency st = Ok (u, st') → shrinks st st'.
Proof.
  unfold enforce_node_consistency.
  intros (ds & st1 & [= <- <-] & Hloop)%bind_Ok.
  revert Hloop. apply for_each_shrinks.
  intros var st0 u0 st0'. simpl.
  destruct (dict_get _ var) as [ws|]; [|done].
  apply for_each_shrinks. intros w st1 u1 st1'.
  case_bool_decide.
  - apply domain_remove_shrinks.
  - intros [= <- <-]. apply shrinks_refl.
Qed.

Lemma revise_loop_shrinks x y ox oy ws :
  ∀ revision st b st',
    revise_loop x y ox oy ws revision st = Ok (b, st') → shrinks st st'.
Proof.
  induction ws as [|w ws IH]; simpl; intros revision st b st'.
  - intros [= <- <-]. apply shrinks_refl.
  - intros (ys & st1 & [Hys ->]%domain_of_Ok & Hrest)%bind_Ok.
    apply bind_Ok in Hrest as (found & st2 & [Hf ->]%lift_Ok & Hrest).
    destruct found; [by eapply IH|].
    apply bind_Ok in Hrest as (u & st3 & Hrm & Hrest).
    eapply shrinks_trans; [by eapply domain_remove_shrinks|by eapply IH].
Qed.

Lemma revise_shrinks x y st b st' :
  revise c x y st = Ok (b, st') → shrinks st st'.
Proof.
  unfold revise. destruct (overlaps c x y) as [[ox oy]|]; [|done].
  intros (ds & st1 & [= <- <-] & Hrest)%bind_Ok.
  case_bool_decide.
  - destruct (dict_get _ x); [|done]. by eapply revise_loop_shrinks.
  - injection Hrest as <- <-. apply shrinks_refl.
Qed.

Lemma ac3_shrinks arcs st r st' :
  ac3 c arcs st = Ok (r, st') → shrinks st st'.
Proof.
  unfold ac3. intros (queue & st1 & Hq & Hrest)%bind_Ok.
  assert (st1 = st) as ->.
  { destruct (falsy arcs); [|by injection Hq].
    by apply bind_Ok in Hq as (? & ? & [= <- <-] & [= <- <-]). }
  destruct queue as [[|[x y] queue']|]; [| |done].
  - injection Hrest as <- <-. apply shrinks_refl.
  - apply bind_Ok in Hrest as (revised & st2 & Hrev%revise_shrinks & Hrest).
    destruct revised.
    + apply bind_Ok in Hrest as (dx & st3 & [_ ->]%domain_of_Ok & Hrest).
      destruct (length dx =? 0); by injection Hrest as <- <-.
    + by injection Hrest as <- <-.
Qed.
End Pruning.

(** ** Node consistency *)

Lemma filter_ext_elem {A} (P Q : A → Prop)
    `{!∀ x, Decision (P x), !∀ x, Decision (Q x)} (l : list A) :
  (∀ x, x ∈ l → P x ↔ Q x) → filter P l = filter Q l.
Proof.
  induction l as [|a l IH]; intros HPQ; [done|].
  rewrite !filter_cons.
  assert (filter P l = filter Q l) as ->.
  { apply IH. intros x Hx. apply HPQ. by apply elem_of_cons; right. }
  assert (P a ↔ Q a) as Ha by (apply HPQ, elem_of_cons; by left).
  destruct (decide (P a)), (decide (Q a)); tauto.
Qed.

Lemma filter_all {A} (P : A → Prop) `{!∀ x, Decision (P x)} (l : list A) :
  (∀ x, x ∈ l → P x) → filter P l = l.
Proof.
  induction l as [|a l IH]; intros HP; [done|].
  rewrite filter_cons, decide_True by (apply HP, elem_of_cons; by left).
  f_equal. apply IH. intros x Hx. apply HP, elem_of_cons. by right.
Qed.

Lemma Solver_eta st : mkSolver (domains st) (heap st) = st.
Proof. by destruct st. Qed.

(** The loop over one variable's copied domain removes exactly the words
    of the wrong length. *)
Lemma enforce_inner var leng ws :
  ∀ st cur,
    NoDup ws →
    dict_get (domains st) var = Some cur →
    (∀ w, w ∈ ws → String.length w ≠ leng → w ∈ cur) →
    for_each ws (λ words,
        if bool_decide (String.length words ≠ leng)
        then domain_remove var words else ret tt) st
    = Ok (tt, mkSolver
                (dict_set (domains st) var
                   (filter (λ w, w ∉ ws ∨ String.length w = leng) cur))
                (heap st)).
Proof.
  induction ws as [|w ws IH]; intros st cur Hnd Hcur Hin; simpl.
  - rewrite filter_all by (intros; left; apply not_elem_of_nil).
    by rewrite (dict_set_same _ _ _ Hcur), Solver_eta.
  - apply NoDup_cons in Hnd as [Hw Hnd]. unfold bind at 1.
    case_bool_decide as Hlen.
    + unfold domain_remove. rewrite Hcur.
      rewrite bool_decide_true by (apply Hin; [apply elem_of_cons; by left|done]).
      rewrite (IH _ (filter (λ w', w' ≠ w) cur)); simpl.
      * rewrite dict_set_set, list_filter_filter.
        apply (f_equal (λ z, Ok (tt, mkSolver (dict_set _ _ z) _))).
        apply list_filter_iff. intros x. rewrite not_elem_of_cons.
        split; [intros [[?|?] ?]; auto|].
        intros [[? ?]|Hx]; [auto|]. split; [auto|]. by intros ->.
      * done.
      * apply dict_get_set_eq.
      * intros w' Hw' Hlen'. apply list_elem_of_filter. split.
        -- by intros ->.
        -- apply Hin; [apply elem_of_cons; by right|done].
    + unfold ret at 1. rewrite (IH _ cur); [|done|done|].
      * apply (f_equal (λ z, Ok (tt, mkSolver (dict_set _ _ z) _))).
        apply list_filter_iff. intros x.
        rewrite not_elem_of_cons.
        destruct (decide (x = w)) as [->|]; naive_solver.
      * intros w' Hw' Hlen'. apply Hin; [apply elem_of_cons; by right|done].
Qed.

Section NodeConsistency.
Variable c : Crossword.

Lemma enforce_outer d0 vs :
  ∀ st,
    NoDup vs →
    (∀ v ws, dict_get d0 v = Some ws → NoDup ws) →
    (∀ v, v ∈ vs → is_Some (dict_get d0 v)) →
    (∀ v, v ∈ vs → dict_get (domains st) v = dict_get d0 v) →
    ∃ st',
      for_each vs (λ var,
        let leng := var_length var in
        match dict_get d0 var with
        | None => raise KeyError
        | Some ws =>
            for_each ws (λ words,
              if bool_decide (String.length words ≠ leng)
              then domain_remove var words else ret tt)
        end) st = Ok (tt, st') ∧
      heap st' = heap st ∧
      keys (domains st') = keys (domains st) ∧
      ∀ v, dict_get (domains st') v =
           if decide (v ∈ vs)
           then filter (λ w, String.length w = var_length v) <$> dict_get d0 v
           else dict_get (domains st) v.
Proof.
  induction vs as [|var vs IH]; intros st Hnd Hsets Hdom Hsame; simpl.
  - exists st. by repeat split.
  - apply NoDup_cons in Hnd as [Hvar Hnd].
    destruct (Hdom var) as [ws Hws]; [apply elem_of_cons; by left|].
    assert (dict_get (domains st) var = Some ws) as Hcur.
    { rewrite Hsame; [done|]. apply elem_of_cons; by left. }
    unfold bind at 1. rewrite Hws.
    rewrite (enforce_inner var (var_length var) ws st ws); [|by eauto|done|done].
    set (st1 := mkSolver _ _).
    destruct (IH st1) as (st' & Hrun & Hheap & Hkeys & Hget); [done|done|..].
    { intros v Hv. apply Hdom, elem_of_cons. by right. }
    { intros v Hv. simpl. rewrite dict_get_set_ne by (by intros ->).
      apply Hsame, elem_of_cons. by right. }
    exists st'. split; [done|]. split; [done|]. split.
    { rewrite Hkeys. simpl. apply keys_dict_set_in, dict_get_is_Some. eauto. }
    intros v. rewrite Hget. simpl.
    destruct (decide (v = var)) as [->|Hne].
    + rewrite decide_False by done. rewrite decide_True by (apply elem_of_cons; by left).
      rewrite dict_get_set_eq, Hws. simpl. f_equal.
      apply filter_ext_elem. intros w Hw. naive_solver.
    + rewrite dict_get_set_ne by done.
      destruct (decide (v ∈ vs)) as [Hv|Hv].
      * by rewrite decide_True by (apply elem_of_cons; by right).
      * by rewrite decide_False by (apply not_elem_of_cons; done).
Qed.

(** [enforce_node_consistency] returns normally and filters every
    domain by the length of its variable. *)
Lemma enforce_node_consistency_spec st :
  domains_wf st →
  ∃ st',
    enforce_node_consistency st = Ok (tt, st') ∧
    heap st' = heap st ∧
    keys (domains st') = keys (domains st) ∧
    ∀ v, dict_get (domains st') v =
         filter (λ w, String.length w = var_length v) <$> dict_get (domains st) v.
Proof.
  intros [Hkeys Hsets]. unfold enforce_node_consistency, bind, get_domains.
  destruct (enforce_outer (domains st) (keys (domains st)) st)
    as (st' & Hrun & Hheap & Hk & Hget); [done|done|..|done|].
  { intros v Hv. by apply dict_get_is_Some. }
  exists st'. repeat split; [done..|].
  intros v. rewrite Hget. case_decide as Hv; [done|].
  apply dict_get_None in Hv. by rewrite Hv.
Qed.
End NodeConsistency.

(** ** Arc consistency: [revise] and [ac3] return normally *)

Lemma find_match_Ok word_x ox oy ys :
  ox < String.length word_x →
  (∀ wy, wy ∈ ys → oy < String.length wy) →
  ∃ b, find_match word_x ox oy ys = Ok b.
Proof.
  intros Hx. induction ys as [|wy ys IH]; intros Hy; simpl; [eauto|].
  destruct (str_index_Ok word_x ox Hx) as [cx ->].
  destruct (str_index_Ok wy oy) as [cy ->]; [apply Hy, elem_of_cons; by left|].
  case_bool_decide; [eauto|].
  apply IH. intros w Hw. apply Hy, elem_of_cons. by right.
Qed.

Lemma revise_loop_Ok x y ox oy ws :
  ∀ revision st cur,
    NoDup ws →
    dict_get (domains st) x = Some cur →
    ws ⊆ cur →
    is_Some (dict_get (domains st) y) →
    (∀ w, w ∈ ws → ox < String.length w) →
    (∀ ys wy, dict_get (domains st) y = Some ys → wy ∈ ys → oy < String.length wy) →
    ∃ b st', revise_loop x y ox oy ws revision st = Ok (b, st').
Proof.
  induction ws as [|w ws IH]; intros revision st cur Hnd Hcur Hsub [ys Hys] Hox Hoy;
    simpl; [by eexists _, _|].
  apply NoDup_cons in Hnd as [Hw Hnd].
  unfold bind at 1, domain_of. rewrite Hys.
  destruct (find_match_Ok w ox oy ys) as [found Hfound].
  { apply Hox, elem_of_cons. by left. }
  { intros wy. by apply Hoy. }
  unfold bind at 1, lift. rewrite Hfound.
  assert (∀ w', w' ∈ ws → ox < String.length w') as Hox'.
  { intros w' Hw'. apply Hox, elem_of_cons. by right. }
  destruct found.
  - apply (IH _ _ cur); eauto.
    intros w' Hw'. apply Hsub, elem_of_cons. by right.
  - unfold bind at 1.
    destruct (domain_remove x w st) as [[u st1]|e] eqn:Hrm.
    + pose proof (domain_remove_shrinks _ _ _ _ _ Hrm) as (Hk & _ & Hsh).
      apply domain_remove_Ok in Hrm as (s & Hs & _ & ->).
      assert (s = cur) as -> by congruence.
      apply (IH _ _ (filter (λ w', w' ≠ w) cur)); [done|..|done|].
      * apply dict_get_set_eq.
      * intros w' Hw'. apply list_elem_of_filter. split; [by intros ->|].
        apply Hsub, elem_of_cons. by right.
      * apply dict_get_is_Some. rewrite Hk. apply dict_get_is_Some. eauto.
      * intros ys1 wy Hys1 Hwy.
        destruct (Hsh y ys1 Hys1) as (ys0 & Hys0 & Hsub0).
        apply (Hoy ys0); [done|]. by apply Hsub0.
    + exfalso. unfold domain_remove in Hrm. rewrite Hcur in Hrm.
      rewrite bool_decide_true in Hrm; [done|].
      apply Hsub, elem_of_cons. by left.
Qed.

Section ArcConsistency.
Variable c : Crossword.

Lemma wf_overlap_in_range v n x y :
  wf_crossword c → v ∈ variables c → n ∈ variables c →
  overlaps c v n = Some (x, y) → x < var_length v ∧ y < var_length n.
Proof.
  intros (_ & _ & Hall) Hv Hn Hov.
  rewrite Forall_forall in Hall. specialize (Hall v Hv).
  rewrite Forall_forall in Hall. specialize (Hall n Hn).
  unfold overlap_in_range in Hall. rewrite Hov in Hall.
  apply andb_true_iff in Hall as [H1%Nat.ltb_lt H2%Nat.ltb_lt]. done.
Qed.

Lemma elem_of_neighbors var n :
  n ∈ neighbors c var ↔ n ∈ variables c ∧ n ≠ var ∧ is_Some (overlaps c var n).
Proof. unfold neighbors. rewrite list_elem_of_filter. tauto. Qed.

Lemma elem_of_initial_arcs ds x y :
  (x, y) ∈ initial_arcs c ds → x ∈ keys ds ∧ y ∈ neighbors c x.
Proof.
  unfold initial_arcs. rewrite list_elem_of_In, in_flat_map.
  intros (var1 & Hvar1 & Hin). apply in_map_iff in Hin as (var2 & [= <- <-] & Hin).
  rewrite <- list_elem_of_In in Hvar1, Hin.
  by apply list_elem_of_filter in Hin as [_ ?].
Qed.

Lemma revise_Ok x y st :
  wf_crossword c → keys (domains st) = variables c →
  domains_wf st → node_consistent st →
  x ∈ variables c → y ∈ variables c → is_Some (overlaps c x y) →
  ∃ b st', revise c x y st = Ok (b, st').
Proof.
  intros Hwf Hkeys [_ Hsets] Hnode Hx Hy [[ox oy] Hov].
  destruct (wf_overlap_in_range x y ox oy) as [Hox Hoy]; [done..|].
  unfold revise. rewrite Hov. unfold bind, get_domains.
  case_bool_decide; [|by eexists _, _].
  destruct (dict_get (domains st) x) as [ws|] eqn:Hws.
  - apply (revise_loop_Ok x y ox oy ws false st ws); eauto.
    + apply dict_get_is_Some. by rewrite Hkeys.
    + intros w Hw. by rewrite (Hnode x ws w).
    + intros ys wy Hys Hwy. by rewrite (Hnode y ys wy).
  - apply dict_get_None in Hws. by rewrite Hkeys in Hws.
Qed.

(** With no arc list, [ac3] returns normally on a node-consistent
    solver of a well-formed puzzle. *)
Lemma ac3_None_Ok st :
  wf_crossword c → keys (domains st) = variables c →
  domains_wf st → node_consistent st →
  ∃ r st', ac3 c None st = Ok (r, st').
Proof.
  intros Hwf Hkeys Hdwf Hnode. unfold ac3. simpl.
  unfold bind at 1 2, get_domains, ret at 1.
  destruct (initial_arcs c (domains st)) as [|[x y] queue'] eqn:Hq;
    [by eexists _, _|].
  assert ((x, y) ∈ initial_arcs c (domains st)) as Harc.
  { rewrite Hq. apply elem_of_cons. by left. }
  apply elem_of_initial_arcs in Harc as [Hx Hy].
  apply elem_of_neighbors in Hy as (Hy & _ & Hov).
  rewrite Hkeys in Hx.
  destruct (revise_Ok x y st) as (b & st1 & Hrev); [done..|].
  unfold bind at 1. rewrite Hrev.
  destruct b; [|by eexists _, _].
  apply revise_shrinks in Hrev as (Hk1 & _ & _).
  unfold bind, domain_of.
  destruct (dict_get (domains st1) x) as [dx|] eqn:Hdx.
  - destruct (length dx =? 0); by eexists _, _.
  - apply dict_get_None in Hdx. rewrite Hk1, Hkeys in Hdx. done.
Qed.
End ArcConsistency.

(** ** The consistency predicate *)

Section Consistent.
Variable c : Crossword.
Implicit Types (a : list (Var * string)).

Lemma check_neighbors_true a var ns :
  check_neighbors c a var ns = Ok true →
  ∀ n, n ∈ ns → n ∈ keys a →
    ∃ x y wv wn ch,
      overlaps c var n = Some (x, y) ∧
      dict_get a var = Some wv ∧ dict_get a n = Some wn ∧
      String.get x wv = Some ch ∧ String.get y wn = Some ch.
Proof.
  induction ns as [|n0 ns IH]; simpl; intros Hchk n Hn Hna.
  - by apply elem_of_nil in Hn.
  - apply elem_of_cons in Hn as [->|Hn].
    + apply dict_mem_true in Hna. rewrite Hna in Hchk.
      destruct (overlaps c var n0) as [[x y]|]; [|done].
      destruct (dict_get a var) as [wv|]; [|done].
      destruct (dict_get a n0) as [wn|]; [|done].
      unfold str_index in Hchk.
      destruct (String.get x wv) as [cx|] eqn:Hcx; [|done].
      destruct (String.get y wn) as [cy|] eqn:Hcy; [|done].
      case_bool_decide as Hne; [done|]. subst cy.
      exists x, y, wv, wn, cx. by split_and!.
    + apply IH; [|done..].
      destruct (dict_mem a n0); [|done].
      destruct (overlaps c var n0) as [[x y]|]; [|done].
      destruct (dict_get a var) as [wv|]; [|done].
      destruct (dict_get a n0) as [wn|]; [|done].
      destruct (str_index wv x); [|done].
      destruct (str_index wn y); [|done].
      by case_bool_decide.
Qed.

Lemma check_overlaps_true a vars :
  check_overlaps c a vars = Ok true →
  ∀ v, v ∈ vars → check_neighbors c a v (neighbors c v) = Ok true.
Proof.
  induction vars as [|v0 vars IH]; simpl; intros Hchk v Hv.
  - by apply elem_of_nil in Hv.
  - destruct (check_neighbors c a v0 (neighbors c v0)) as [[|]|] eqn:H0; [|done..].
    apply elem_of_cons in Hv as [->|Hv]; auto.
Qed.

Lemma lengths_checked a :
  forallb (λ item : Var * string,
             bool_decide (var_length item.1 = String.length item.2)) a = true →
  ∀ v w, (v, w) ∈ a → String.length w = var_length v.
Proof.
  rewrite forallb_forall. intros Hall v w Hin.
  apply list_elem_of_In, Hall, bool_decide_eq_true in Hin. done.
Qed.

(** A [True] from [consistent] establishes the three constraints. *)
Lemma consistent_satisfies a : consistent c a = Ok true → satisfies c a.
Proof.
  unfold consistent. case_bool_decide as Hlen; [done|].
  destruct (forallb _ a) eqn:Hall; simpl; [|done]. intros Hov.
  split_and!.
  - by apply remove_dups_length_NoDup.
  - by apply lengths_checked.
  - intros v n wv wn Hv Hn Hnb.
    assert (v ∈ keys a) as Hvk by (apply dict_get_is_Some; eauto).
    assert (n ∈ keys a) as Hnk by (apply dict_get_is_Some; eauto).
    pose proof (check_overlaps_true _ _ Hov v Hvk) as Hchk.
    destruct (check_neighbors_true _ _ _ Hchk n Hnb Hnk)
      as (x & y & wv' & wn' & ch & ? & ? & ? & ? & ?).
    exists x, y, ch. by simplify_eq.
Qed.

Lemma check_neighbors_Ok a var ns :
  wf_crossword c →
  keys a ⊆ variables c →
  (∀ v w, (v, w) ∈ a → String.length w = var_length v) →
  var ∈ keys a → ns ⊆ neighbors c var →
  ∃ b, check_neighbors c a var ns = Ok b.
Proof.
  intros Hwf Hsub Hlen Hvar.
  induction ns as [|n ns IH]; simpl; intros Hns; [eauto|].
  assert (ns ⊆ neighbors c var) as Hns'.
  { intros n' Hn'. apply Hns, elem_of_cons. by right. }
  destruct (dict_mem a n) eqn:Hmem; [|by apply IH].
  apply dict_mem_true in Hmem.
  assert (n ∈ neighbors c var) as Hn by (apply Hns, elem_of_cons; by left).
  apply elem_of_neighbors in Hn as (Hnv & _ & [[x y] Hov]). rewrite Hov.
  apply dict_get_is_Some in Hvar as [wv Hwv].
  pose proof Hmem as [wn Hwn]%dict_get_is_Some. rewrite Hwv, Hwn.
  destruct (wf_overlap_in_range c var n x y) as [Hx Hy]; [done| |done..|].
  { apply Hsub, dict_get_is_Some. eauto. }
  destruct (str_index_Ok wv x) as [cx ->].
  { by rewrite (Hlen var wv) by by apply dict_get_Some_elem. }
  destruct (str_index_Ok wn y) as [cy ->].
  { by rewrite (Hlen n wn) by by apply dict_get_Some_elem. }
  case_bool_decide; [eauto|]. by apply IH.
Qed.

Lemma check_overlaps_Ok a vars :
  wf_crossword c →
  keys a ⊆ variables c →
  (∀ v w, (v, w) ∈ a → String.length w = var_length v) →
  vars ⊆ keys a →
  ∃ b, check_overlaps c a vars = Ok b.
Proof.
  intros Hwf Hsub Hlen.
  induction vars as [|v vars IH]; simpl; intros Hvars; [eauto|].
  destruct (check_neighbors_Ok a v (neighbors c v)) as [b ->]; [done..| |done|].
  { apply Hvars, elem_of_cons. by left. }
  destruct b; [|eauto].
  apply IH. intros v' Hv'. apply Hvars, elem_of_cons. by right.
Qed.

(** On a well-formed puzzle [consistent] never raises. *)
Lemma consistent_Ok a :
  wf_crossword c → keys a ⊆ variables c → ∃ b, consistent c a = Ok b.
Proof.
  intros Hwf Hsub. unfold consistent.
  case_bool_decide; [eauto|].
  destruct (forallb _ a) eqn:Hall; simpl; [|eauto].
  apply check_overlaps_Ok; [done..| |done].
  by apply lengths_checked.
Qed.
End Consistent.

(** ** Variable selection *)

Lemma select_unassigned_variable_Ok_inv a st v st' :
  select_unassigned_variable a st = Ok (v, st') →
  st' = st ∧ v ∈ keys (domains st) ∧ v ∉ keys a.
Proof.
  unfold select_unassigned_variable, bind, get_domains.
  set (unassign_var := filter _ (domains st)).
  destruct (map fst (sorted_by _ unassign_var)) as [|v0 l] eqn:Hs; [done|].
  intros [= <- <-]. split; [done|].
  assert (v0 ∈ map fst (sorted_by (λ item : Var * list string, length item.2)
                          unassign_var)) as Hin.
  { rewrite Hs. apply elem_of_cons. by left. }
  apply list_elem_of_fmap in Hin as ([v ws] & -> & Hin).
  rewrite sorted_by_Permutation in Hin.
  apply list_elem_of_filter in Hin as [Hmem Hin]. simpl in *. split.
  - apply list_elem_of_fmap. by exists (v, ws).
  - by apply dict_mem_false.
Qed.

Lemma select_unassigned_variable_Ok a st v :
  v ∈ keys (domains st) → v ∉ keys a →
  ∃ var, select_unassigned_variable a st = Ok (var, st).
Proof.
  intros Hv Ha. unfold select_unassigned_variable, bind, get_domains.
  set (unassign_var := filter _ (domains st)).
  destruct (map fst (sorted_by _ unassign_var)) as [|v0 l] eqn:Hs;
    [|by eexists].
  exfalso. apply fmap_nil_inv in Hs.
  apply list_elem_of_fmap in Hv as ([v' ws] & -> & Hin).
  assert ((v', ws) ∈ unassign_var) as Hu.
  { apply list_elem_of_filter. split; [|done]. by apply dict_mem_false. }
  rewrite <- (sorted_by_Permutation (λ item : Var * list string, length item.2)) in Hu.
  rewrite Hs in Hu. by apply elem_of_nil in Hu.
Qed.

(** ** Backtracking search *)

Lemma extends_refl st : extends st st.
Proof. split; [done|]. exists []. by rewrite app_nil_r. Qed.

Lemma extends_trans st1 st2 st3 : extends st1 st2 → extends st2 st3 → extends st1 st3.
Proof.
  intros [Hd1 [h1 Hh1]] [Hd2 [h2 Hh2]]. split; [congruence|].
  exists (h1 ++ h2). by rewrite Hh2, Hh1, app_assoc.
Qed.

Lemma extends_lookup st st' r a :
  extends st st' → heap st !! r = Some a → heap st' !! r = Some a.
Proof.
  intros [_ [h' ->]] Hr. rewrite lookup_app_l; [done|]. by eapply lookup_lt_Some.
Qed.

Lemma extends_alloc st a : extends st (mkSolver (domains st) (heap st ++ [a])).
Proof. split; [done|]. by exists [a]. Qed.

Section Backtrack.
Variable c : Crossword.
Implicit Types (a : list (Var * string)) (st : Solver).

(** One round of the loop over the candidate words: the copy of the
    assignment is a new dictionary, extended by [var := value]. *)
Lemma backtrack_loop_cons rec r var value vals st a :
  heap st !! r = Some a →
  backtrack_loop c rec r var (value :: vals) st =
    let a' := dict_set a var value in
    let st2 := mkSolver (domains st) (heap st ++ [a']) in
    match consistent c a' with
    | Raise e => Raise e
    | Ok true =>
        match rec (length (heap st)) st2 with
        | Raise e => Raise e
        | Ok (Some r', st3) => Ok (Some r', st3)
        | Ok (None, st3) => backtrack_loop c rec r var vals st3
        end
    | Ok false => backtrack_loop c rec r var vals st2
    end.
Proof.
  intros Hr. simpl.
  unfold bind at 1, dict_copy, bind at 1, deref at 1. rewrite Hr.
  unfold alloc. unfold bind at 1, dict_setitem. simpl.
  rewrite list_lookup_middle by done.
  rewrite insert_app_r_alt by done. rewrite Nat.sub_diag. simpl.
  unfold bind at 1, deref. simpl. rewrite list_lookup_middle by done.
  unfold bind at 1, lift.
  destruct (consistent c (dict_set a var value)) as [[|]|e]; [|done..].
  unfold bind at 1.
  destruct (rec _ _) as [[[r'|] st3]|e]; done.
Qed.

Lemma backtrack_loop_dangling rec r var value vals st :
  heap st !! r = None →
  backtrack_loop c rec r var (value :: vals) st = Raise KeyError.
Proof.
  intros Hr. simpl. unfold bind at 1, dict_copy, bind at 1, deref at 1.
  by rewrite Hr.
Qed.

Lemma search_inv_extend ds a var value dom :
  search_inv c ds a →
  var ∉ keys a → dict_get ds var = Some dom → value ∈ dom →
  consistent c (dict_set a var value) = Ok true →
  search_inv c ds (dict_set a var value).
Proof.
  intros (Hnd & Hsub & _ & Hwords) Hvar Hdom Hvalue Hcons.
  split_and!; [| |done|]; rewrite dict_set_fresh in * by done.
  - unfold keys in *. rewrite fmap_app. apply NoDup_app. split_and!; [done| |].
    + intros v Hv [->|[]%elem_of_nil]%elem_of_cons. done.
    + apply NoDup_singleton.
  - unfold keys in *. rewrite fmap_app. intros v [Hv|Hv]%elem_of_app; [auto|].
    apply list_elem_of_singleton in Hv as ->. simpl.
    apply (dict_get_is_Some ds var). eauto.
  - intros v w [Hin|Hin]%elem_of_app; [auto|].
    apply list_elem_of_singleton in Hin as [= -> ->]. eauto.
Qed.

Lemma backtrack_loop_spec rec r var vals :
  (∀ r0 st0 res st0',
      rec r0 st0 = Ok (res, st0') →
      extends st0 st0' ∧
      ∀ a0, heap st0 !! r0 = Some a0 → search_inv c (domains st0) a0 →
            returns_solution c st0 res st0') →
  ∀ st res st',
    backtrack_loop c rec r var vals st = Ok (res, st') →
    extends st st' ∧
    ∀ a dom,
      heap st !! r = Some a → search_inv c (domains st) a →
      var ∉ keys a → dict_get (domains st) var = Some dom → vals ⊆ dom →
      returns_solution c st res st'.
Proof.
  intros Hrec. induction vals as [|value vals IH]; intros st res st' Hrun.
  - injection Hrun as <- <-. split; [apply extends_refl|].
    intros ? ? _ _ _ _ _ r' ?. done.
  - destruct (heap st !! r) as [a|] eqn:Hr;
      [|by rewrite backtrack_loop_dangling in Hrun].
    rewrite (backtrack_loop_cons _ _ _ _ _ _ a Hr) in Hrun. simpl in Hrun.
    set (a' := dict_set a var value) in *.
    set (st2 := mkSolver (domains st) (heap st ++ [a'])) in *.
    assert (extends st st2) as Hext2 by apply extends_alloc.
    assert (∀ st3 res3,
               extends st st3 →
               backtrack_loop c rec r var vals st3 = Ok (res3, st') →
               extends st st' ∧
               ∀ a1 dom,
                 Some a = Some a1 → search_inv c (domains st) a1 →
                 var ∉ keys a1 → dict_get (domains st) var = Some dom →
                 value :: vals ⊆ dom → returns_solution c st res3 st')
      as Hnext.
    { intros st3 res3 Hext3 Hrun3.
      destruct (IH st3 res3 st' Hrun3) as [Hext Hsol].
      split; [by eapply extends_trans|].
      intros a1 dom [= <-] Hinv Hvar Hdom Hsub.
      pose proof Hext3 as [Hd3 _].
      unfold returns_solution. rewrite <- Hd3.
      apply (Hsol a dom); rewrite ?Hd3; [by eapply extends_lookup|done..|].
      intros w Hw. apply Hsub, elem_of_cons. by right. }
    destruct (consistent c a') as [[|]|e] eqn:Hcons; [| |done].
    + destruct (rec (length (heap st)) st2) as [[[r'|] st3]|e] eqn:Hcall;
        [| |done].
      * injection Hrun as <- <-.
        destruct (Hrec _ _ _ _ Hcall) as [Hext3 Hsol].
        split; [by eapply extends_trans|].
        intros a1 dom [= <-] Hinv Hvar Hdom Hsub.
        apply (Hsol a'); [by apply list_lookup_middle|].
        apply search_inv_extend with dom; [done..| |done].
        apply Hsub, elem_of_cons. by left.
      * destruct (Hrec _ _ _ _ Hcall) as [Hext3 _].
        apply (Hnext st3); [|done]. by eapply extends_trans.
    + by apply (Hnext st2).
Qed.

(** [backtrack] only allocates dictionaries, and what it returns is an
    assignment of full size that passed [consistent]. *)
Lemma backtrack_spec depth :
  ∀ r st res st',
    backtrack c depth r st = Ok (res, st') →
    extends st st' ∧
    ∀ a, heap st !! r = Some a → search_inv c (domains st) a →
         returns_solution c st res st'.
Proof.
  induction depth as [|depth IH]; intros r st res st' Hrun; [done|].
  simpl in Hrun. unfold bind at 1, deref in Hrun.
  destruct (heap st !! r) as [a|] eqn:Hr; [|done].
  unfold bind at 1, get_domains in Hrun.
  destruct (length a =? length (domains st)) eqn:Hlen.
  - injection Hrun as <- <-. split; [apply extends_refl|].
    intros a0 [= <-] Hinv r' [= <-]. exists a.
    by apply Nat.eqb_eq in Hlen.
  - apply bind_Ok in Hrun as (var & st1 & Hsel & Hrun).
    apply select_unassigned_variable_Ok_inv in Hsel as (-> & Hvar & Hfresh).
    apply bind_Ok in Hrun as (vals & st1 & [Hvals ->]%domain_of_Ok & Hrun).
    destruct (backtrack_loop_spec _ r var vals IH st res st' Hrun) as [Hext Hsol].
    split; [done|]. intros a0 [= <-] Hinv. by apply (Hsol a vals).
Qed.
End Backtrack.

(** ** The search returns normally *)

Lemma NoDup_subseteq_length {A} (l k : list A) :
  NoDup l → l ⊆ k → length l ≤ length k.
Proof. intros Hnd Hsub. by apply submseteq_length, NoDup_submseteq. Qed.

Lemma keys_length {K V} (d : list (K * V)) : length (keys d) = length d.
Proof. unfold keys. apply length_fmap. Qed.

Section BacktrackTotal.
Variable c : Crossword.
Hypothesis Hwf : wf_crossword c.
Variable ds : list (Var * list string).
Hypothesis Hds : keys ds ⊆ variables c.
Hypothesis Hnd : NoDup (keys ds).
Implicit Types (a : list (Var * string)) (st : Solver).

Lemma backtrack_loop_Ok depth r var vals a :
  (∀ r0 st0 a0,
      domains st0 = ds → heap st0 !! r0 = Some a0 →
      NoDup (keys a0) → keys a0 ⊆ keys ds → length a0 = S (length a) →
      ∃ res st', backtrack c depth r0 st0 = Ok (res, st')) →
  NoDup (keys a) → keys a ⊆ keys ds → var ∈ keys ds → var ∉ keys a →
  ∀ st,
    domains st = ds → heap st !! r = Some a →
    ∃ res st', backtrack_loop c (backtrack c depth) r var vals st = Ok (res, st').
Proof.
  intros Hrec Ha Hsub Hvar Hfresh.
  induction vals as [|value vals IH]; intros st Hdom Hr; [by eexists _, _|].
  rewrite (backtrack_loop_cons _ _ _ _ _ _ _ a Hr). simpl.
  set (a' := dict_set a var value).
  set (st2 := mkSolver (domains st) (heap st ++ [a'])).
  assert (a' = a ++ [(var, value)]) as Ha' by by apply dict_set_fresh.
  assert (keys a' = keys a ++ [var]) as Hk'.
  { rewrite Ha'. unfold keys. by rewrite fmap_app. }
  assert (keys a' ⊆ keys ds) as Hsub'.
  { rewrite Hk'. intros v [?| ->%list_elem_of_singleton]%elem_of_app; auto. }
  destruct (consistent_Ok c a' Hwf) as [ok ->]; [by etrans|].
  assert (heap st2 !! r = Some a) as Hr2.
  { apply (extends_lookup st); [apply extends_alloc|done]. }
  destruct ok; [|by apply IH].
  destruct (Hrec (length (heap st)) st2 a') as (res & st3 & Hcall); [done|..].
  { by apply list_lookup_middle. }
  { rewrite Hk'. apply NoDup_app. split_and!; [done| |apply NoDup_singleton].
    by intros v Hv ->%list_elem_of_singleton. }
  { done. }
  { rewrite Ha', length_app. simpl. lia. }
  rewrite Hcall. destruct res as [r'|]; [by eexists _, _|].
  apply backtrack_spec in Hcall as [Hext _].
  apply IH.
  - destruct Hext as [-> _]. done.
  - by apply (extends_lookup st2).
Qed.

(** A call returns within a depth of one frame per unassigned variable
    plus one. *)
Lemma backtrack_Ok depth :
  ∀ r st a,
    domains st = ds → heap st !! r = Some a →
    NoDup (keys a) → keys a ⊆ keys ds →
    length ds - length a < depth →
    ∃ res st', backtrack c depth r st = Ok (res, st').
Proof.
  induction depth as [|depth IH]; intros r st a Hdom Hr Ha Hsub Hdepth; [lia|].
  simpl. unfold bind at 1, deref. rewrite Hr.
  unfold bind at 1, get_domains. rewrite Hdom.
  destruct (length a =? length ds) eqn:Hlen; [by eexists _, _|].
  apply Nat.eqb_neq in Hlen.
  assert (∃ v, v ∈ keys ds ∧ v ∉ keys a) as (v & Hv & Hfresh).
  { destruct (decide (Forall (λ v, v ∈ keys a) (keys ds))) as [Hall|Hex].
    - exfalso. rewrite Forall_forall in Hall.
      pose proof (NoDup_subseteq_length _ _ Hnd Hall).
      pose proof (NoDup_subseteq_length _ _ Ha Hsub).
      rewrite !keys_length in *. lia.
    - apply not_Forall_Exists in Hex; [|apply _].
      apply Exists_exists in Hex as (v & ? & ?). eauto. }
  rewrite <- Hdom in Hv.
  destruct (select_unassigned_variable_Ok a st v Hv Hfresh) as [var Hsel].
  unfold bind at 1. rewrite Hsel.
  apply select_unassigned_variable_Ok_inv in Hsel as (_ & Hvar & Hvfresh).
  unfold bind at 1, domain_of.
  destruct (dict_get (domains st) var) as [vals|] eqn:Hvals;
    [|by apply dict_get_None in Hvals].
  rewrite Hdom in Hvar.
  pose proof (NoDup_subseteq_length _ _ Ha Hsub) as Hle.
  rewrite !keys_length in Hle.
  apply (backtrack_loop_Ok depth r var vals a); [|done..].
  intros r0 st0 a0 Hd0 Hr0 Hnd0 Hsub0 Hlen0.
  apply (IH r0 st0 a0); [done..|]. lia.
Qed.
End BacktrackTotal.

(** ** The whole pipeline *)

Section Solve.
Variable c : Crossword.

Lemma keys_init : keys (domains (init c)) = variables c.
Proof.
  unfold init, keys. simpl.
  induction (variables c) as [|v vs IH]; [done|]. csimpl. by f_equal.
Qed.

Lemma dict_get_init v ws :
  dict_get (domains (init c)) v = Some ws → ws = words c.
Proof.
  intros Hin%dict_get_Some_elem. unfold init in Hin. simpl in Hin.
  by apply list_elem_of_fmap in Hin as (v' & [= _ ->] & _).
Qed.

Lemma init_wf : wf_crossword c → domains_wf (init c).
Proof.
  intros (Hvars & Hwords & _). split; [by rewrite keys_init|].
  by intros v ws ->%dict_get_init.
Qed.

Lemma search_inv_nil ds : search_inv c ds [].
Proof.
  split_and!; [apply NoDup_nil_2| |done|].
  - intros v Hv. by apply elem_of_nil in Hv.
  - intros v w Hin. by apply elem_of_nil in Hin.
Qed.

(** What [solve] hands back is a solution of the puzzle. *)
Lemma solve_returns r st' :
  solve c (init c) = Ok (Some r, st') →
  ∃ a, heap st' !! r = Some a ∧ solution c a.
Proof.
  unfold solve.
  intros (u & st1 & Henf%enforce_node_consistency_shrinks & Hrun)%bind_Ok.
  apply bind_Ok in Hrun as (b & st2 & Hac3%ac3_shrinks & Hrun).
  pose proof (shrinks_trans _ _ _ Henf Hac3) as (Hkeys & Hheap & Hsub).
  apply bind_Ok in Hrun as (r0 & st3 & [= <- <-] & Hrun).
  apply bind_Ok in Hrun as (ds & st4 & [= <- <-] & Hrun).
  apply backtrack_spec in Hrun as [_ Hsol]. simpl in Hsol.
  rewrite Hheap in Hsol. simpl in Hsol.
  destruct (Hsol [] eq_refl (search_inv_nil _) r eq_refl)
    as (a & Ha & (Hnd & Hka & Hcons & Hwords) & Hlen).
  simpl in Hka, Hcons, Hwords, Hlen.
  exists a. split; [done|]. rewrite Hkeys, keys_init in Hka.
  split_and!.
  - split; [done|]. intros v.
    assert (keys a ≡ₚ variables c) as <-; [|done].
    apply submseteq_length_Permutation; [by apply NoDup_submseteq|].
    rewrite <- keys_init, <- Hkeys, !keys_length. lia.
  - by apply consistent_satisfies.
  - intros v w Hin. destruct (Hwords v w Hin) as (ws & Hws & Hw).
    destruct (Hsub v ws Hws) as (ws0 & ->%dict_get_init & Hsub0). auto.
Qed.

(** On a well-formed puzzle [solve] returns normally. *)
Lemma solve_Ok :
  wf_crossword c → ∃ res st', solve c (init c) = Ok (res, st').
Proof.
  intros Hwf. unfold solve.
  destruct (enforce_node_consistency_spec (init c) (init_wf Hwf))
    as (st1 & Henf & Hheap1 & Hkeys1 & Hget1).
  unfold bind at 1. rewrite Henf.
  rewrite keys_init in Hkeys1.
  assert (domains_wf st1) as Hwf1.
  { split; [rewrite Hkeys1; apply Hwf|].
    intros v ws. rewrite Hget1.
    destruct (dict_get (domains (init c)) v) as [ws0|] eqn:Hws0; [|done].
    intros [= <-]. apply NoDup_filter. apply dict_get_init in Hws0 as ->.
    apply Hwf. }
  assert (node_consistent st1) as Hnode1.
  { intros v ws w. rewrite Hget1.
    destruct (dict_get (domains (init c)) v) as [ws0|]; [|done].
    intros [= <-] Hw. by apply list_elem_of_filter in Hw as [? _]. }
  destruct (ac3_None_Ok c st1) as (b & st2 & Hac3); [done..|].
  unfold bind at 1. rewrite Hac3.
  apply ac3_shrinks in Hac3 as (Hkeys2 & Hheap2 & _).
  unfold bind at 1, alloc. unfold bind at 1, get_domains. cbn [domains].
  rewrite Hkeys1 in Hkeys2.
  apply (backtrack_Ok c Hwf (domains st2)) with (a := []); cbn [domains heap].
  - by rewrite Hkeys2.
  - rewrite Hkeys2. apply Hwf.
  - done.
  - by apply list_lookup_middle.
  - apply NoDup_nil_2.
  - intros v Hv. by apply elem_of_nil in Hv.
  - lia.
Qed.
End Solve.

(** ** The example puzzles are well formed *)

Lemma cross_wf : wf_crossword cross.
Proof. split_and!; by apply (bool_decide_unpack _). Qed.

Lemma cross_unsat_wf : wf_crossword cross_unsat.
Proof. split_and!; by apply (bool_decide_unpack _). Qed.

Lemma cross_unsat_no_solution a : ¬ solution cross_unsat a.
Proof.
  intros ([_ Hall] & (_ & Hlen & Hov) & Hwords).
  assert (cross_x ∈ keys a) as [wx Hx]%dict_get_is_Some.
  { apply Hall. simpl. apply elem_of_cons. by left. }
  assert (cross_y ∈ keys a) as [wy Hy]%dict_get_is_Some.
  { apply Hall. simpl. apply elem_of_cons. right. apply elem_of_cons. by left. }
  assert (wx = "CAT") as ->.
  { pose proof (dict_get_Some_elem _ _ _ Hx) as Hin.
    pose proof (Hlen _ _ Hin) as Hl. apply Hwords in Hin. simpl in Hin.
    apply elem_of_cons in Hin as [->|Hin]; [done|].
    apply elem_of_cons in Hin as [->|Hin]; [done|]. by apply elem_of_nil in Hin. }
  assert (wy = "BIRD") as ->.
  { pose proof (dict_get_Some_elem _ _ _ Hy) as Hin.
    pose proof (Hlen _ _ Hin) as Hl. apply Hwords in Hin. simpl in Hin.
    apply elem_of_cons in Hin as [->|Hin]; [done|].
    apply elem_of_cons in Hin as [->|Hin]; [done|]. by apply elem_of_nil in Hin. }
  destruct (Hov cross_x cross_y _ _ Hx Hy) as (x & y & ch & Ho & Hcx & Hcy).
  { by apply (bool_decide_unpack _). }
  injection Ho as <- <-. simpl in Hcx, Hcy. congruence.
Qed.

(** ** The properties of the solver *)

(** C1.  Backtracking soundness: whenever [solve()] returns an assignment
    rather than [None], the assignment gives every variable of the puzzle
    exactly one word, the words are pairwise distinct, each has the length
    of its variable, and two neighbouring variables carry the same
    character at their overlap. *)
Theorem solve_sound (c : Crossword) (r : ref) (st' : Solver) :
  solve c (init c) = Ok (Some r, st') →
  ∃ a, heap st' !! r = Some a ∧ complete c a ∧ satisfies c a.
Proof.
  intros (a & Ha & Hcomplete & Hsat & _)%solve_returns. eauto.
Qed.

Lemma solve_sound_witness :
  ∃ a, heap cross_solved !! 2 = Some a ∧ complete cross a ∧ satisfies cross a.
Proof. apply (solve_sound cross 2 cross_solved). reflexivity. Defined.

(** C2.  Unsatisfiability: on a puzzle whose word list admits no solution,
    [solve()] returns [None] as an ordinary value; it raises nothing and
    returns no assignment. *)
Theorem solve_unsat (c : Crossword) :
  wf_crossword c →
  (∀ a, ¬ solution c a) →
  ∃ st', solve c (init c) = Ok (None, st').
Proof.
  intros Hwf Hunsat. destruct (solve_Ok c Hwf) as ([r|] & st' & Hrun); [|eauto].
  exfalso. apply solve_returns in Hrun as (a & _ & Hsol). by apply (Hunsat a).
Qed.

Lemma solve_unsat_witness : ∃ st', solve cross_unsat (init cross_unsat) = Ok (None, st').
Proof.
  apply (solve_unsat cross_unsat).
  - exact cross_unsat_wf.
  - exact cross_unsat_no_solution.
Defined.

(** C3.  [ac3] does not drain its worklist.  On the crossing puzzle the
    worklist holds both arcs; [ac3] revises the first, answers [True], and
    leaves the second arc unrevised although a revision of it still
    removes a word.  This holds for either iteration order of the
    variable set. *)
Theorem ac3_stops_after_first_arc :
  (initial_arcs cross (domains cross_nc) = [(cross_x, cross_y); (cross_y, cross_x)] ∧
   ac3 cross None cross_nc = Ok (Some true, cross_ac) ∧
   revise cross cross_y cross_x cross_ac
   = Ok (true, mkSolver [(cross_x, ["CAT"]); (cross_y, ["BALL"])] [])) ∧
  (initial_arcs cross_rev (domains cross_rev_nc) = [(cross_y, cross_x); (cross_x, cross_y)] ∧
   ac3 cross_rev None cross_rev_nc = Ok (Some true, cross_rev_ac) ∧
   revise cross_rev cross_x cross_y cross_rev_ac
   = Ok (true, mkSolver [(cross_y, ["BALL"]); (cross_x, ["CAT"])] [])).
Proof. by split_and!. Qed.

(** An overlap at index 0 of [x] makes [revise(x, y)] skip its loop. *)
Lemma revise_index_zero (c : Crossword) (x y : Var) (oy : nat) (st : Solver) :
  overlaps c x y = Some (0, oy) → revise c x y st = Ok (false, st).
Proof. intros Hov. unfold revise. by rewrite Hov. Qed.

(** C4.  [revise] on a pair that overlaps at index 0.  In the corner
    puzzle after node consistency, the only word of [domain(x)] has no
    word of [domain(y)] agreeing with it at the overlap [(0, 0)], yet
    [revise(x, y)] removes nothing and answers [False]. *)
Theorem revise_skips_overlap_at_zero :
  enforce_node_consistency (init corner) = Ok (tt, corner_nc) ∧
  overlaps corner corner_x corner_y = Some (0, 0) ∧
  dict_get (domains corner_nc) corner_x = Some ["AB"] ∧
  dict_get (domains corner_nc) corner_y = Some ["CDE"] ∧
  find_match "AB" 0 0 ["CDE"] = Ok false ∧
  revise corner corner_x corner_y corner_nc = Ok (false, corner_nc).
Proof. split_and!; [done..|]. by apply (revise_index_zero corner _ _ 0). Qed.

(** C5.  Node consistency: [enforce_node_consistency()] returns normally,
    and afterwards the domain of every variable holds exactly the words
    of its former domain that have the variable's length. *)
Theorem enforce_node_consistency_post (st : Solver) :
  domains_wf st →
  ∃ st',
    enforce_node_consistency st = Ok (tt, st') ∧
    ∀ v ws, dict_get (domains st) v = Some ws →
      ∃ ws', dict_get (domains st') v = Some ws' ∧
             ∀ w, w ∈ ws' ↔ w ∈ ws ∧ String.length w = var_length v.
Proof.
  intros Hwf.
  destruct (enforce_node_consistency_spec st Hwf) as (st' & Hrun & _ & _ & Hget).
  exists st'. split; [done|]. intros v ws Hws.
  rewrite Hget, Hws. simpl. eexists. split; [done|].
  intros w. rewrite list_elem_of_filter. tauto.
Qed.

Lemma enforce_node_consistency_post_witness :
  ∃ st',
    enforce_node_consistency (init cross) = Ok (tt, st') ∧
    ∀ v ws, dict_get (domains (init cross)) v = Some ws →
      ∃ ws', dict_get (domains st') v = Some ws' ∧
             ∀ w, w ∈ ws' ↔ w ∈ ws ∧ String.length w = var_length v.
Proof.
  apply (enforce_node_consistency_post (init cross)).
  exact (init_wf cross cross_wf).
Defined.

(** C6.  [revise] on a pair without a shared cell: the table entry is
    [None], and unpacking it raises [TypeError] before anything else
    happens; no [False] is returned. *)
Theorem revise_no_overlap_raises (c : Crossword) (x y : Var) (st : Solver) :
  overlaps c x y = None → revise c x y st = Raise TypeError.
Proof. intros Hov. unfold revise. by rewrite Hov. Qed.

Lemma revise_no_overlap_raises_witness :
  revise apart apart_x apart_y (init apart) = Raise TypeError.
Proof. apply (revise_no_overlap_raises apart apart_x apart_y). reflexivity. Defined.

(** C7.  [ac3] with a non-empty arc list: the local [queue] is never
    bound, so the loop condition raises [UnboundLocalError]. *)
Theorem ac3_explicit_arcs_raises (c : Crossword) (arc : Var * Var)
    (arcs : list (Var * Var)) (st : Solver) :
  ac3 c (Some (arc :: arcs)) st = Raise UnboundLocalError.
Proof. reflexivity. Qed.

(** C8.  Search frame: a call of [backtrack] that returns leaves
    [self.domains] as it was and only adds new dictionaries to the store,
    so the caller's assignment, like every dictionary that existed, is
    unchanged. *)
Theorem backtrack_frame (c : Crossword) (depth : nat) (assignment : ref)
    (st : Solver) (res : option ref) (st' : Solver) :
  backtrack c depth assignment st = Ok (res, st') →
  domains st' = domains st ∧
  (∃ copies, heap st' = heap st ++ copies) ∧
  heap st' !! assignment = heap st !! assignment ∧
  ∀ r a, heap st !! r = Some a → heap st' !! r = Some a.
Proof.
  intros Hrun. pose proof Hrun as [Hext _]%backtrack_spec.
  pose proof Hext as [Hdom Hheap]. split_and!; [done..| |].
  - destruct (heap st !! assignment) as [a|] eqn:Ha.
    + by apply (extends_lookup st).
    + destruct depth; [done|]. simpl in Hrun.
      unfold bind at 1, deref in Hrun. by rewrite Ha in Hrun.
  - intros r a. by apply extends_lookup.
Qed.

Lemma backtrack_frame_witness :
  domains cross_solved = domains (mkSolver (domains cross_ac) [[]]) ∧
  (∃ copies, heap cross_solved = heap (mkSolver (domains cross_ac) [[]]) ++ copies) ∧
  heap cross_solved !! 0 = heap (mkSolver (domains cross_ac) [[]]) !! 0 ∧
  ∀ r a, heap (mkSolver (domains cross_ac) [[]]) !! r = Some a →
         heap cross_solved !! r = Some a.
Proof.
  apply (backtrack_frame cross 3 0 (mkSolver (domains cross_ac) [[]])
           (Some 2) cross_solved).
  reflexivity.
Defined.

(** C9.  [order_domain_values] returns from inside its loop: with the
    two candidates CAT and DOG left for the across slot it answers the
    one-word list [CAT], so DOG is missing from the result. *)
Theorem order_domain_values_first_only :
  dict_get (domains cross_nc) cross_x = Some ["CAT"; "DOG"] ∧
  order_domain_values cross cross_x [] cross_nc = Ok (Some ["CAT"], cross_nc).
Proof. by split. Qed.

Lemma initial_arcs_nil (c : Crossword) (ds : list (Var * list string)) :
  (∀ v, v ∈ keys ds → neighbors c v = []) → initial_arcs c ds = [].
Proof.
  unfold initial_arcs. induction (keys ds) as [|v vs IH]; intros Hno; [done|].
  simpl. rewrite (Hno v) by (apply elem_of_cons; by left). simpl.
  apply IH. intros v' Hv'. apply Hno, elem_of_cons. by right.
Qed.

(** C10.  [ac3()] on a puzzle in which no variable has a neighbour: the
    worklist is empty, the loop is not entered, and the call answers
    [None], neither [True] nor [False], with every domain as it was. *)
Theorem ac3_empty_worklist (c : Crossword) (st : Solver) :
  (∀ v, v ∈ keys (domains st) → neighbors c v = []) →
  ac3 c None st = Ok (None, st).
Proof.
  intros Hno. unfold ac3. simpl. unfold bind, get_domains, ret.
  by rewrite (initial_arcs_nil c (domains st) Hno).
Qed.

Lemma apart_no_neighbors (v : Var) :
  v ∈ keys (domains (init apart)) → neighbors apart v = [].
Proof.
  simpl. intros [->|Hv]%elem_of_cons; [done|].
  apply elem_of_cons in Hv as [->|Hv]; [done|]. by apply elem_of_nil in Hv.
Qed.

Lemma ac3_empty_worklist_witness : ac3 apart None (init apart) = Ok (None, init apart).
Proof.
  apply (ac3_empty_worklist apart (init apart)).
  exact apart_no_neighbors.
Defined.

(** ** More on the consistency predicate *)

Section ConsistentConverse.
Variable c : Crossword.
Implicit Types (a : list (Var * string)).

Lemma check_neighbors_satisfies a var ns :
  satisfies c a → var ∈ keys a → ns ⊆ neighbors c var →
  check_neighbors c a var ns = Ok true.
Proof.
  intros (_ & _ & Hov) Hvar.
  induction ns as [|n ns IH]; simpl; intros Hns; [done|].
  assert (check_neighbors c a var ns = Ok true) as IH'.
  { apply IH. intros n' Hn'. apply Hns, elem_of_cons. by right. }
  destruct (dict_mem a n) eqn:Hmem; [|done].
  apply dict_mem_true, dict_get_is_Some in Hmem as [wn Hwn].
  apply dict_get_is_Some in Hvar as [wv Hwv].
  destruct (Hov var n wv wn Hwv Hwn) as (x & y & ch & -> & Hx & Hy).
  { apply Hns, elem_of_cons. by left. }
  rewrite Hwv, Hwn. unfold str_index. rewrite Hx, Hy.
  by rewrite bool_decide_false by naive_solver.
Qed.

Lemma check_overlaps_satisfies a vars :
  satisfies c a → vars ⊆ keys a → check_overlaps c a vars = Ok true.
Proof.
  intros Hsat. induction vars as [|v vars IH]; simpl; intros Hvars; [done|].
  rewrite check_neighbors_satisfies; [|done| |done].
  - apply IH. intros v' Hv'. apply Hvars, elem_of_cons. by right.
  - apply Hvars, elem_of_cons. by left.
Qed.

Lemma satisfies_consistent a : satisfies c a → consistent c a = Ok true.
Proof.
  intros Hsat. pose proof Hsat as (Hnd & Hlen & _). unfold consistent.
  rewrite bool_decide_false
    by (intros Hne; apply Hne; by apply NoDup_remove_dups_length).
  assert (forallb (λ item : Var * string,
             bool_decide (var_length item.1 = String.length item.2)) a = true)
    as ->.
  { apply forallb_forall. intros [v w] Hin%list_elem_of_In.
    apply bool_decide_eq_true. simpl. symmetry. by apply Hlen. }
  simpl. by apply check_overlaps_satisfies.
Qed.
End ConsistentConverse.

(** X1.  [consistent] answers [True] exactly for the assignments that
    meet the three constraints: distinct words, words of their slots'
    lengths, and equal characters where assigned neighbours cross. *)
Theorem consistent_iff_satisfies (c : Crossword) (a : list (Var * string)) :
  consistent c a = Ok true ↔ satisfies c a.
Proof. split; [apply consistent_satisfies|apply satisfies_consistent]. Qed.

(** X2.  On a well-formed puzzle [consistent] raises nothing: for every
    assignment to variables of the puzzle it answers [True] or [False],
    and [True] only when the constraints hold. *)
Theorem consistent_decides (c : Crossword) (a : list (Var * string)) :
  wf_crossword c → keys a ⊆ variables c →
  ∃ b, consistent c a = Ok b ∧ (b = true ↔ satisfies c a).
Proof.
  intros Hwf Hsub. destruct (consistent_Ok c a Hwf Hsub) as [b Hb].
  exists b. split; [done|]. split.
  - intros ->. by apply consistent_satisfies.
  - intros Hsat%satisfies_consistent. congruence.
Qed.

Lemma consistent_decides_witness :
  ∃ b, consistent cross [(cross_x, "DOG"); (cross_y, "BALL")] = Ok b ∧
       (b = true ↔ satisfies cross [(cross_x, "DOG"); (cross_y, "BALL")]).
Proof.
  apply (consistent_decides cross [(cross_x, "DOG"); (cross_y, "BALL")]).
  - exact cross_wf.
  - by apply (bool_decide_unpack _).
Defined.

(** X3.  A word used twice makes [consistent] answer [False] before it
    looks at lengths or overlaps, so it cannot raise on such an
    assignment. *)
Theorem consistent_repeated_word (c : Crossword) (a : list (Var * string)) :
  ¬ NoDup (values a) → consistent c a = Ok false.
Proof.
  intros Hdup. unfold consistent. rewrite bool_decide_true; [done|].
  intros Hlen. by apply Hdup, remove_dups_length_NoDup.
Qed.

Lemma consistent_repeated_word_witness :
  consistent cross [(cross_x, "CAT"); (cross_y, "CAT")] = Ok false.
Proof.
  apply (consistent_repeated_word cross [(cross_x, "CAT"); (cross_y, "CAT")]).
  by apply (bool_decide_unpack _).
Defined.

(** ** More on variable selection *)

Section SortedHead.
Context {A : Type} (key : A → nat).

(** The head of a stable sort is the first element of least key. *)
Lemma sorted_by_head (l : list A) (x : A) (rest : list A) :
  sorted_by key l = x :: rest →
  ∃ l1 l2, l = l1 ++ x :: l2 ∧
           (∀ y, y ∈ l1 → key x < key y) ∧
           (∀ y, y ∈ l2 → key x ≤ key y).
Proof.
  revert x rest. induction l as [|a l IH]; intros x rest; simpl; [done|].
  destruct (sorted_by key l) as [|y s] eqn:Hs; simpl.
  - intros [= <- <-]. exists [], l.
    pose proof (sorted_by_Permutation key l) as Hp. rewrite Hs in Hp.
    apply Permutation_nil_l in Hp as <-.
    split_and!; [done|..]; intros y Hy; by apply elem_of_nil in Hy.
  - destruct (IH y s eq_refl) as (l1 & l2 & -> & Hbefore & Hafter).
    destruct (key a <=? key y) eqn:Hle.
    + apply Nat.leb_le in Hle. intros [= <- <-]. exists [], (l1 ++ y :: l2).
      split_and!; [done| |].
      * intros z Hz. by apply elem_of_nil in Hz.
      * intros z [Hz|[->|Hz]%elem_of_cons]%elem_of_app.
        -- apply Hbefore in Hz. lia.
        -- done.
        -- apply Hafter in Hz. lia.
    + apply Nat.leb_gt in Hle. intros [= <- <-]. exists (a :: l1), l2.
      split_and!; [done| |done].
      intros z [->|Hz]%elem_of_cons; auto.
Qed.
End SortedHead.

Lemma filter_eq_middle {A} (P : A → Prop) `{!∀ x, Decision (P x)}
    (l : list A) (f1 : list A) (x : A) (f2 : list A) :
  filter P l = f1 ++ x :: f2 →
  ∃ l1 l2, l = l1 ++ x :: l2 ∧ filter P l1 = f1 ∧ filter P l2 = f2.
Proof.
  revert f1. induction l as [|a l IH]; intros f1; [by destruct f1|].
  rewrite filter_cons. destruct (decide (P a)) as [Ha|Ha].
  - destruct f1 as [|b f1]; simpl.
    + intros [= <- Hf]. exists [], l. by rewrite filter_nil.
    + intros [= <- Hf]. destruct (IH f1 Hf) as (l1 & l2 & -> & <- & <-).
      exists (a :: l1), l2. by rewrite filter_cons_True.
  - intros Hf. destruct (IH f1 Hf) as (l1 & l2 & -> & <- & <-).
    exists (a :: l1), l2. by rewrite filter_cons_False.
Qed.

Lemma filter_none {A} (P : A → Prop) `{!∀ x, Decision (P x)} (l : list A) :
  (∀ x, x ∈ l → ¬ P x) → filter P l = [].
Proof.
  induction l as [|a l IH]; intros Hno; [done|].
  rewrite filter_cons_False by (apply Hno, elem_of_cons; by left).
  apply IH. intros x Hx. apply Hno, elem_of_cons. by right.
Qed.

(** X4.  Minimum remaining values: [select_unassigned_variable] answers a
    variable of [self.domains] that has no word yet and whose domain is
    the smallest among the unassigned ones; among equally small domains
    it takes the variable that comes first in [self.domains] (no
    tie-break by degree), and it leaves the solver untouched. *)
Theorem select_unassigned_variable_mrv (a : list (Var * string))
    (st : Solver) (v : Var) (st' : Solver) :
  select_unassigned_variable a st = Ok (v, st') →
  st' = st ∧ (v ∉ keys a) ∧
  ∃ before ws after,
    domains st = before ++ (v, ws) :: after ∧
    (∀ u us, (u, us) ∈ before → u ∉ keys a → length ws < length us) ∧
    (∀ u us, (u, us) ∈ after → u ∉ keys a → length ws ≤ length us).
Proof.
  intros Hsel.
  pose proof (select_unassigned_variable_Ok_inv _ _ _ _ Hsel) as (-> & _ & Hfresh).
  split; [done|]. split; [done|].
  unfold select_unassigned_variable, bind, get_domains in Hsel.
  set (P := λ item : Var * list string, dict_mem a item.1 = false) in *.
  destruct (sorted_by _ (filter P (domains st))) as [|[v0 ws] rest] eqn:Hs;
    [done|].
  injection Hsel as ->.
  apply sorted_by_head in Hs as (f1 & f2 & Hf & Hbefore & Hafter).
  apply filter_eq_middle in Hf as (l1 & l2 & Hl & <- & <-).
  exists l1, ws, l2. split; [done|]. split.
  - intros u us Hin Hu. apply (Hbefore (u, us)).
    apply list_elem_of_filter. split; [|done]. by apply dict_mem_false.
  - intros u us Hin Hu. apply (Hafter (u, us)).
    apply list_elem_of_filter. split; [|done]. by apply dict_mem_false.
Qed.

Lemma select_unassigned_variable_mrv_witness :
  cross_ac = cross_ac ∧ (cross_x ∉ keys ([] : list (Var * string))) ∧
  ∃ before ws after,
    domains cross_ac = before ++ (cross_x, ws) :: after ∧
    (∀ u us, (u, us) ∈ before → u ∉ keys ([] : list (Var * string)) →
             length ws < length us) ∧
    (∀ u us, (u, us) ∈ after → u ∉ keys ([] : list (Var * string)) →
             length ws ≤ length us).
Proof.
  apply (select_unassigned_variable_mrv [] cross_ac cross_x cross_ac).
  reflexivity.
Defined.

(** X5.  With a word for every variable of [self.domains] there is
    nothing to select: [select_unassigned_variable] raises [IndexError]. *)
Theorem select_unassigned_variable_none_left (a : list (Var * string))
    (st : Solver) :
  keys (domains st) ⊆ keys a →
  select_unassigned_variable a st = Raise IndexError.
Proof.
  intros Hall. unfold select_unassigned_variable, bind, get_domains.
  rewrite filter_none; [done|].
  intros [v ws] Hin Hmem. simpl in Hmem.
  apply dict_mem_false in Hmem. apply Hmem, Hall.
  apply list_elem_of_fmap. by exists (v, ws).
Qed.

Lemma select_unassigned_variable_none_left_witness :
  select_unassigned_variable [(cross_x, "CAT"); (cross_y, "BALL")] cross_ac
  = Raise IndexError.
Proof.
  apply (select_unassigned_variable_none_left
           [(cross_x, "CAT"); (cross_y, "BALL")] cross_ac).
  by apply (bool_decide_unpack _).
Defined.

(** ** More on [revise] *)

Lemma find_match_spec (w : string) (ox oy : nat) (ys : list string) (b : bool) :
  find_match w ox oy ys = Ok b →
  (b = true ↔ ∃ w', w' ∈ ys ∧ agree ox oy w w').
Proof.
  revert b. induction ys as [|wy ys IH]; simpl; intros b.
  - intros [= <-]. split; [done|]. intros (w' & Hw' & _). by apply elem_of_nil in Hw'.
  - unfold str_index.
    destruct (String.get ox w) as [cx|] eqn:Hcx; [|done].
    destruct (String.get oy wy) as [cy|] eqn:Hcy; [|done].
    case_bool_decide as Heq.
    + intros [= <-]. split; [intros _|done]. exists wy. split.
      * apply elem_of_cons. by left.
      * exists cx. by subst.
    + intros Hrest. rewrite (IH b Hrest). split.
      * intros (w' & Hw' & Hag). exists w'. split; [|done].
        apply elem_of_cons. by right.
      * intros (w' & [->|Hw']%elem_of_cons & Hag); [|eauto].
        destruct Hag as (ch & Hch & Hch'). congruence.
Qed.

Section ReviseLoop.
Variables (x y : Var) (ox oy : nat).

(** The loop touches no domain but that of [x]. *)
Lemma revise_loop_frame (ws : list string) :
  ∀ revision st b st',
    revise_loop x y ox oy ws revision st = Ok (b, st') →
    ∀ v, v ≠ x → dict_get (domains st') v = dict_get (domains st) v.
Proof.
  induction ws as [|w ws IH]; simpl; intros revision st b st'.
  - by intros [= <- <-].
  - intros (ys & st1 & [Hys ->]%domain_of_Ok & Hrest)%bind_Ok.
    apply bind_Ok in Hrest as (found & st2 & [Hf ->]%lift_Ok & Hrest).
    destruct found; [by eapply IH|].
    apply bind_Ok in Hrest as (u & st3 & Hrm & Hrest).
    apply domain_remove_Ok in Hrm as (s & Hs & _ & ->).
    intros v Hv. rewrite (IH _ _ _ _ Hrest v Hv). simpl.
    by apply dict_get_set_ne.
Qed.

(** The flag, once set, stays set; a run that ends with the flag down has
    changed nothing, and a run that raised it has removed a word. *)
Lemma revise_loop_flag (ws : list string) :
  ∀ revision st b st',
    revise_loop x y ox oy ws revision st = Ok (b, st') →
    (revision = true → b = true) ∧
    (b = false → st' = st) ∧
    (revision = false → b = true →
       ∃ w dx dx', dict_get (domains st) x = Some dx ∧
                   dict_get (domains st') x = Some dx' ∧
                   w ∈ dx ∧ w ∉ dx').
Proof.
  induction ws as [|w ws IH]; simpl; intros revision st b st'.
  - intros [= <- <-]. split_and!; [done..|]. by intros ->.
  - intros (ys & st1 & [Hys ->]%domain_of_Ok & Hrest)%bind_Ok.
    apply bind_Ok in Hrest as (found & st2 & [Hf ->]%lift_Ok & Hrest).
    destruct found; [by eapply IH|].
    apply bind_Ok in Hrest as (u & st3 & Hrm & Hrest).
    pose proof (revise_loop_shrinks _ _ _ _ _ _ _ _ _ Hrest) as (Hk & _ & Hsub).
    destruct (IH _ _ _ _ Hrest) as (Htrue & _ & _).
    specialize (Htrue eq_refl) as ->.
    apply domain_remove_Ok in Hrm as (dx & Hdx & Hw & ->).
    split_and!; [done..|]. intros _ _.
    assert (is_Some (dict_get (domains st') x)) as [dx' Hdx'].
    { apply dict_get_is_Some. rewrite Hk. simpl.
      rewrite keys_dict_set_in; apply dict_get_is_Some; eauto. }
    exists w, dx, dx'. split_and!; [done..|].
    destruct (Hsub x dx' Hdx') as (dx1 & Hdx1 & Hsub1).
    simpl in Hdx1. rewrite dict_get_set_eq in Hdx1. injection Hdx1 as <-.
    intros Hin%Hsub1. apply list_elem_of_filter in Hin as [Hne _]. done.
Qed.

(** What the loop leaves of [domain(x)] when [y] is another variable. *)
Lemma revise_loop_post (ws : list string) (dy : list string) :
  x ≠ y →
  ∀ revision st b st' cur,
    dict_get (domains st) y = Some dy →
    dict_get (domains st) x = Some cur →
    revise_loop x y ox oy ws revision st = Ok (b, st') →
    ∃ cur', dict_get (domains st') x = Some cur' ∧
            ∀ w, w ∈ cur' ↔
                 w ∈ cur ∧ (w ∈ ws → ∃ w', w' ∈ dy ∧ agree ox oy w w').
Proof.
  intros Hxy. induction ws as [|w ws IH]; simpl; intros revision st b st' cur Hdy Hcur.
  - intros [= <- <-]. exists cur. split; [done|]. intros w. split; [|tauto].
    intros Hw. split; [done|]. intros Hin. by apply elem_of_nil in Hin.
  - intros (ys & st1 & [Hys ->]%domain_of_Ok & Hrest)%bind_Ok.
    assert (ys = dy) as -> by congruence.
    apply bind_Ok in Hrest as (found & st2 & [Hf%find_match_spec ->]%lift_Ok & Hrest).
    destruct found.
    + destruct (IH _ _ _ _ cur Hdy Hcur Hrest) as (cur' & Hcur' & Hiff).
      exists cur'. split; [done|]. intros w0. rewrite Hiff.
      split; intros [Hin Hsup]; (split; [done|]).
      * intros [->|Hw0]%elem_of_cons; [by apply Hf|auto].
      * intros Hw0. apply Hsup, elem_of_cons. by right.
    + apply bind_Ok in Hrest as (u & st3 & Hrm & Hrest).
      apply domain_remove_Ok in Hrm as (dx & Hdx & Hw & ->).
      assert (dx = cur) as -> by congruence.
      set (st1 := mkSolver _ _) in Hrest.
      assert (dict_get (domains st1) y = Some dy) as Hdy1.
      { simpl. by rewrite dict_get_set_ne. }
      assert (dict_get (domains st1) x = Some (filter (λ w', w' ≠ w) cur)) as Hcur1.
      { apply dict_get_set_eq. }
      destruct (IH _ _ _ _ _ Hdy1 Hcur1 Hrest) as (cur' & Hcur' & Hiff).
      exists cur'. split; [done|]. intros w0. rewrite Hiff, list_elem_of_filter.
      split.
      * intros [[Hne Hin] Hsup]. split; [done|].
        intros [->|Hw0]%elem_of_cons; [done|auto].
      * intros [Hin Hsup]. split_and!; [|done|].
        -- intros ->.
           destruct Hf as [_ Hf]. specialize (Hsup ltac:(apply elem_of_cons; by left)).
           by specialize (Hf Hsup).
        -- intros Hw0. apply Hsup, elem_of_cons. by right.
Qed.
End ReviseLoop.

(** X6.  [revise(x, y)] never touches a domain other than that of [x],
    nor the variable set, nor any assignment. *)
Theorem revise_frame (c : Crossword) (x y : Var) (st : Solver) (b : bool)
    (st' : Solver) :
  revise c x y st = Ok (b, st') →
  heap st' = heap st ∧
  keys (domains st') = keys (domains st) ∧
  ∀ v, v ≠ x → dict_get (domains st') v = dict_get (domains st) v.
Proof.
  intros Hrev. pose proof (revise_shrinks c _ _ _ _ _ Hrev) as (Hk & Hh & _).
  split_and!; [done..|]. revert Hrev. unfold revise.
  destruct (overlaps c x y) as [[ox oy]|]; [|done].
  intros (ds & st1 & [= <- <-] & Hrest)%bind_Ok.
  case_bool_decide.
  - destruct (dict_get _ x); [|done]. by eapply revise_loop_frame.
  - by injection Hrest as <- <-.
Qed.

Lemma revise_frame_witness :
  heap cross_ac = heap cross_nc ∧
  keys (domains cross_ac) = keys (domains cross_nc) ∧
  ∀ v, v ≠ cross_x → dict_get (domains cross_ac) v = dict_get (domains cross_nc) v.
Proof.
  apply (revise_frame cross cross_x cross_y cross_nc true cross_ac). reflexivity.
Defined.

(** X7.  The answer of [revise] tells whether the domain changed: with
    [False] the solver is exactly as before, and with [True] some word
    of [domain(x)] is gone. *)
Theorem revise_answer (c : Crossword) (x y : Var) (st : Solver) (b : bool)
    (st' : Solver) :
  revise c x y st = Ok (b, st') →
  (b = false → st' = st) ∧
  (b = true →
     ∃ w dx dx', dict_get (domains st) x = Some dx ∧
                 dict_get (domains st') x = Some dx' ∧
                 w ∈ dx ∧ w ∉ dx').
Proof.
  unfold revise. destruct (overlaps c x y) as [[ox oy]|]; [|done].
  intros (ds & st1 & [= <- <-] & Hrest)%bind_Ok.
  case_bool_decide.
  - destruct (dict_get _ x) eqn:Hdx; [|done].
    apply revise_loop_flag in Hrest as (_ & Hfalse & Htrue).
    rewrite Hdx in Htrue. split; [done|]. by apply Htrue.
  - injection Hrest as <- <-. by split.
Qed.

Lemma revise_answer_witness :
  (true = false → cross_ac = cross_nc) ∧
  (true = true →
     ∃ w dx dx', dict_get (domains cross_nc) cross_x = Some dx ∧
                 dict_get (domains cross_ac) cross_x = Some dx' ∧
                 w ∈ dx ∧ w ∉ dx').
Proof.
  apply (revise_answer cross cross_x cross_y cross_nc true cross_ac). reflexivity.
Defined.

(** X8.  [revise] on two different variables that overlap at an index
    of [x] other than 0, with every word long enough for its index: the
    call returns normally, [domain(x)] keeps exactly the words that
    agree with some word of [domain(y)] at the overlap, [domain(y)] is
    unchanged, and the answer is [True] exactly when a word was
    removed. *)
Theorem revise_removes_unsupported (c : Crossword) (x y : Var) (ox oy : nat)
    (st : Solver) (dx dy : list string) :
  overlaps c x y = Some (ox, oy) → ox ≠ 0 → x ≠ y →
  dict_get (domains st) x = Some dx →
  dict_get (domains st) y = Some dy →
  NoDup dx →
  (∀ w, w ∈ dx → ox < String.length w) →
  (∀ w', w' ∈ dy → oy < String.length w') →
  ∃ b st' dx',
    revise c x y st = Ok (b, st') ∧
    dict_get (domains st') x = Some dx' ∧
    dict_get (domains st') y = Some dy ∧
    (∀ w, w ∈ dx' ↔ w ∈ dx ∧ ∃ w', w' ∈ dy ∧ agree ox oy w w') ∧
    (b = true ↔ ∃ w, w ∈ dx ∧ w ∉ dx').
Proof.
  intros Hov Hox Hxy Hdx Hdy Hnd Hlx Hly.
  destruct (revise_loop_Ok x y ox oy dx false st dx) as (b & st' & Hloop).
  { done. }
  { done. }
  { done. }
  { eauto. }
  { exact Hlx. }
  { intros ys wy Hys. assert (ys = dy) as -> by congruence. apply Hly. }
  assert (revise c x y st = Ok (b, st')) as Hrev.
  { unfold revise. rewrite Hov. unfold bind, get_domains.
    rewrite bool_decide_true by done. by rewrite Hdx. }
  destruct (revise_loop_post x y ox oy dx dy Hxy _ _ _ _ dx Hdy Hdx Hloop)
    as (dx' & Hdx' & Hiff).
  exists b, st', dx'. split_and!; [done..| | |].
  - rewrite (revise_loop_frame _ _ _ _ _ _ _ _ _ Hloop y) by done. done.
  - intros w. rewrite Hiff. split; [intros [? Hs]; auto|]. intros [? ?]. auto.
  - apply revise_loop_flag in Hloop as (_ & Hfalse & Htrue). split.
    + intros ->. destruct (Htrue eq_refl eq_refl) as (w & dx0 & dx0' & ? & ? & ? & ?).
      exists w. by simplify_eq.
    + intros (w & Hw & Hw'). destruct b; [done|].
      specialize (Hfalse eq_refl) as ->. congruence.
Qed.

Lemma revise_removes_unsupported_witness :
  ∃ b st' dx',
    revise cross cross_x cross_y cross_nc = Ok (b, st') ∧
    dict_get (domains st') cross_x = Some dx' ∧
    dict_get (domains st') cross_y = Some ["BALL"; "BIRD"] ∧
    (∀ w, w ∈ dx' ↔ w ∈ ["CAT"; "DOG"] ∧
                    ∃ w', w' ∈ ["BALL"; "BIRD"] ∧ agree 1 1 w w') ∧
    (b = true ↔ ∃ w, w ∈ ["CAT"; "DOG"] ∧ w ∉ dx').
Proof.
  apply (revise_removes_unsupported cross cross_x cross_y 1 1 cross_nc
           ["CAT"; "DOG"] ["BALL"; "BIRD"]).
  - reflexivity.
  - by apply (bool_decide_unpack _).
  - by apply (bool_decide_unpack _).
  - reflexivity.
  - reflexivity.
  - by apply (bool_decide_unpack _).
  - apply Forall_forall. by apply (bool_decide_unpack _).
  - apply Forall_forall. by apply (bool_decide_unpack _).
Defined.

(** ** Pruning keeps every solution *)

Section KeepsSolutions.
Variable c : Crossword.
Variable s : list (Var * string).
Hypothesis Hsol : solution c s.

Lemma solution_lookup v : v ∈ variables c → ∃ w, dict_get s v = Some w ∧ (v, w) ∈ s.
Proof.
  destruct Hsol as ([_ Hall] & _ & _). intros Hv%Hall.
  apply dict_get_is_Some in Hv as [w Hw]. exists w.
  split; [done|]. by apply dict_get_Some_elem.
Qed.

Lemma solution_elem_lookup v w : (v, w) ∈ s → dict_get s v = Some w.
Proof. destruct Hsol as ([Hnd _] & _ & _). by apply elem_dict_get. Qed.

Lemma domain_remove_within var w st u st' :
  within (domains st) s →
  (var, w) ∉ s →
  domain_remove var w st = Ok (u, st') →
  within (domains st') s.
Proof.
  intros Hin Hfree (dx & Hdx & _ & ->)%domain_remove_Ok v w0 Hvw. simpl.
  destruct (Hin v w0 Hvw) as (ws & Hws & Hw0).
  destruct (decide (var = v)) as [->|Hne].
  - rewrite dict_get_set_eq. eexists. split; [done|].
    assert (ws = dx) as -> by congruence.
    apply list_elem_of_filter. split; [|done]. by intros ->.
  - rewrite dict_get_set_ne by done. eauto.
Qed.

Lemma for_each_within {A} (l : list A) (body : A → M unit) :
  (∀ x st u st',
      within (domains st) s → body x st = Ok (u, st') → within (domains st') s) →
  ∀ st u st',
    within (domains st) s → for_each l body st = Ok (u, st') →
    within (domains st') s.
Proof.
  intros Hbody. induction l as [|x l IH]; simpl; intros st u st' Hin.
  - by intros [= <- <-].
  - intros (u1 & st1 & H1 & H2)%bind_Ok.
    apply (IH st1 u st'); [|done]. by apply (Hbody x st u1 st1).
Qed.

Lemma enforce_within st u st' :
  within (domains st) s →
  enforce_node_consistency st = Ok (u, st') →
  within (domains st') s.
Proof.
  unfold enforce_node_consistency.
  intros Hin (ds & st1 & [= <- <-] & Hloop)%bind_Ok.
  revert Hin Hloop. apply for_each_within.
  intros var st0 u0 st0'. simpl.
  destruct (dict_get _ var) as [ws|]; [|done].
  apply for_each_within. intros w st1 u1 st1' Hin1.
  case_bool_decide as Hlen; [|by intros [= <- <-]].
  apply domain_remove_within; [done|].
  intros Hused. destruct Hsol as (_ & (_ & Hl & _) & _).
  by apply Hl in Hused.
Qed.

Lemma revise_loop_within x y ox oy ws :
  y ∈ neighbors c x → overlaps c x y = Some (ox, oy) →
  ∀ revision st b st',
    within (domains st) s →
    revise_loop x y ox oy ws revision st = Ok (b, st') →
    within (domains st') s.
Proof.
  intros Hnb Hov. induction ws as [|w ws IH]; simpl; intros revision st b st' Hin.
  - by intros [= <- <-].
  - intros (ys & st1 & [Hys ->]%domain_of_Ok & Hrest)%bind_Ok.
    apply bind_Ok in Hrest as (found & st2 & [Hf%find_match_spec ->]%lift_Ok & Hrest).
    destruct found; [by eapply IH|].
    apply bind_Ok in Hrest as (u & st3 & Hrm & Hrest).
    assert ((x, w) ∉ s) as Hfree.
    { intros Hused. pose proof (solution_elem_lookup _ _ Hused) as Hx.
      pose proof Hnb as (Hy & _ & _)%elem_of_neighbors.
      destruct (solution_lookup y Hy) as (wy & Hwy & Hy_in).
      destruct (Hin y wy Hy_in) as (ys' & Hys' & Hwy_in).
      assert (ys' = ys) as -> by congruence.
      destruct Hsol as (_ & (_ & _ & Hagree) & _).
      destruct (Hagree x y w wy Hx Hwy Hnb) as (x0 & y0 & ch & Hov' & Hcx & Hcy).
      assert (x0 = ox ∧ y0 = oy) as [-> ->] by (split; congruence).
      destruct Hf as [_ Hf]. enough (false = true) by done.
      apply Hf. exists wy. split; [done|]. by exists ch. }
    apply (IH _ _ _ _ (domain_remove_within _ _ _ _ _ Hin Hfree Hrm) Hrest).
Qed.

Lemma revise_within x y st b st' :
  y ∈ neighbors c x →
  within (domains st) s →
  revise c x y st = Ok (b, st') →
  within (domains st') s.
Proof.
  intros Hnb Hin. unfold revise.
  destruct (overlaps c x y) as [[ox oy]|] eqn:Hov; [|done].
  intros (ds & st1 & [= <- <-] & Hrest)%bind_Ok.
  case_bool_decide.
  - destruct (dict_get _ x); [|done]. by eapply revise_loop_within.
  - by injection Hrest as <- <-.
Qed.

Lemma ac3_within st r st' :
  within (domains st) s →
  ac3 c None st = Ok (r, st') →
  within (domains st') s.
Proof.
  intros Hin. unfold ac3. simpl. unfold bind at 1 2, get_domains, ret at 1.
  destruct (initial_arcs c (domains st)) as [|[x y] queue'] eqn:Hq.
  - by intros [= <- <-].
  - assert ((x, y) ∈ initial_arcs c (domains st)) as [_ Hnb]%elem_of_initial_arcs.
    { rewrite Hq. apply elem_of_cons. by left. }
    intros (revised & st1 & Hrev & Hrest)%bind_Ok.
    pose proof (revise_within x y st revised st1 Hnb Hin Hrev) as Hin1.
    destruct revised.
    + apply bind_Ok in Hrest as (dx & st2 & [_ ->]%domain_of_Ok & Hrest).
      destruct (length dx =? 0); by injection Hrest as <- <-.
    + by injection Hrest as <- <-.
Qed.

Lemma init_within : within (domains (init c)) s.
Proof.
  intros v w Hvw. exists (words c). split.
  - destruct Hsol as ([_ Hall] & _ & _).
    assert (v ∈ keys (domains (init c))) as [ws Hws]%dict_get_is_Some.
    { rewrite keys_init. apply Hall, list_elem_of_fmap. by exists (v, w). }
    by rewrite Hws, (dict_get_init c v ws Hws).
  - destruct Hsol as (_ & _ & Hwords). by apply (Hwords v).
Qed.
End KeepsSolutions.

(** ** The search is complete *)

Lemma NoDup_fmap_elem_inj {A B} (f : A → B) (l : list A) (x y : A) :
  NoDup (f <$> l) → x ∈ l → y ∈ l → f x = f y → x = y.
Proof.
  induction l as [|a l IH]; csimpl; intros Hnd Hx Hy Hf.
  - by apply elem_of_nil in Hx.
  - apply NoDup_cons in Hnd as [Ha Hnd].
    apply elem_of_cons in Hx as [->|Hx]; apply elem_of_cons in Hy as [->|Hy].
    + done.
    + exfalso. apply Ha. rewrite Hf. by apply list_elem_of_fmap_2.
    + exfalso. apply Ha. rewrite <- Hf. by apply list_elem_of_fmap_2.
    + by apply IH.
Qed.

Section SearchComplete.
Variable c : Crossword.
Variable s : list (Var * string).
Hypothesis Hsol : solution c s.
Implicit Types (a : list (Var * string)) (st : Solver).

(** A part of a solution meets the constraints. *)
Lemma sub_assignment_satisfies a : a ⊆ s → NoDup (keys a) → satisfies c a.
Proof.
  intros Hsub Hnd. destruct Hsol as ([Hks _] & (Hvals & Hlen & Hagree) & _).
  split_and!.
  - apply NoDup_fmap_2_strong.
    + intros p q Hp Hq Hpq.
      apply (NoDup_fmap_elem_inj snd s); auto.
    + by apply NoDup_fmap_1 in Hnd.
  - intros v w Hin. apply Hlen. by apply Hsub.
  - intros v n wv wn Hv%dict_get_Some_elem Hn%dict_get_Some_elem Hnb.
    apply (Hagree v n wv wn); [| |done]; by apply elem_dict_get, Hsub.
Qed.

Variable ds : list (Var * list string).
Hypothesis Hkeys : keys ds ⊆ variables c.
Hypothesis Hin : within ds s.

Lemma backtrack_loop_complete depth r var a w :
  (∀ r0 st0 a0 res st0',
      domains st0 = ds → heap st0 !! r0 = Some a0 →
      a0 ⊆ s → NoDup (keys a0) →
      backtrack c depth r0 st0 = Ok (res, st0') → is_Some res) →
  a ⊆ s → NoDup (keys a) → var ∉ keys a → (var, w) ∈ s →
  ∀ vals st res st',
    domains st = ds → heap st !! r = Some a → w ∈ vals →
    backtrack_loop c (backtrack c depth) r var vals st = Ok (res, st') →
    is_Some res.
Proof.
  intros Hrec Hsub Hnd Hfresh Hvar.
  induction vals as [|value vals IH]; intros st res st' Hdom Hr Hw Hrun.
  - by apply elem_of_nil in Hw.
  - rewrite (backtrack_loop_cons _ _ _ _ _ _ _ a Hr) in Hrun. simpl in Hrun.
    set (a' := dict_set a var value) in *.
    set (st2 := mkSolver (domains st) (heap st ++ [a'])) in *.
    assert (a' = a ++ [(var, value)]) as Ha' by by apply dict_set_fresh.
    assert (NoDup (keys a')) as Hnd'.
    { rewrite Ha'. unfold keys. rewrite fmap_app. apply NoDup_app.
      split_and!; [done| |apply NoDup_singleton].
      by intros v Hv ->%list_elem_of_singleton. }
    assert (value = w → a' ⊆ s) as Hsub'.
    { intros ->. rewrite Ha'.
      intros p [Hp| ->%list_elem_of_singleton]%elem_of_app; auto. }
    assert (heap st2 !! r = Some a) as Hr2.
    { apply (extends_lookup st); [apply extends_alloc|done]. }
    assert (value ≠ w → w ∈ vals) as Hrest.
    { intros Hne. apply elem_of_cons in Hw as [->|Hw]; done. }
    destruct (consistent c a') as [[|]|e] eqn:Hcons; [| |done].
    + destruct (backtrack c depth (length (heap st)) st2)
        as [[[r'|] st3]|e] eqn:Hcall; [| |done].
      * injection Hrun as <- <-. eauto.
      * pose proof (backtrack_spec c _ _ _ _ _ Hcall) as [Hext _].
        destruct (decide (value = w)) as [Heq|Hne].
        -- assert (is_Some (None : option ref)) as [? [=]].
           apply (Hrec (length (heap st)) st2 a' None st3); [done| |auto..].
           by apply list_lookup_middle.
        -- apply (IH st3 res st'); [| |by apply Hrest|done].
           ++ destruct Hext as [-> _]. done.
           ++ by apply (extends_lookup st2).
    + destruct (decide (value = w)) as [Heq|Hne].
      * rewrite (satisfies_consistent c a') in Hcons; [done|].
        by apply sub_assignment_satisfies; [apply Hsub'|].
      * by apply (IH st2 res st'); [| |apply Hrest|].
Qed.

(** If a solution within the domains extends the assignment, the search
    does not give up. *)
Lemma backtrack_complete depth :
  ∀ r st a res st',
    domains st = ds → heap st !! r = Some a →
    a ⊆ s → NoDup (keys a) →
    backtrack c depth r st = Ok (res, st') → is_Some res.
Proof.
  induction depth as [|depth IH]; intros r st a res st' Hdom Hr Hsub Hnd Hrun;
    [done|].
  simpl in Hrun. unfold bind at 1, deref in Hrun. rewrite Hr in Hrun.
  unfold bind at 1, get_domains in Hrun.
  destruct (length a =? length (domains st)); [injection Hrun as <- <-; eauto|].
  apply bind_Ok in Hrun as (var & st1 & Hsel & Hrun).
  apply select_unassigned_variable_Ok_inv in Hsel as (-> & Hvar & Hfresh).
  apply bind_Ok in Hrun as (vals & st1 & [Hvals ->]%domain_of_Ok & Hrun).
  rewrite Hdom in Hvar, Hvals.
  destruct (solution_lookup c s Hsol var) as (w & _ & Hw); [by apply Hkeys|].
  destruct (Hin var w Hw) as (ws & Hws & Hw_in).
  assert (ws = vals) as -> by congruence.
  by apply (backtrack_loop_complete depth r var a w IH Hsub Hnd Hfresh Hw
              vals st res st').
Qed.
End SearchComplete.


Section SearchPrefix.
Variable c : Crossword.
Implicit Types (a : list (Var * string)) (st : Solver).

Lemma backtrack_loop_prefix depth r var a :
  (∀ r0 st0 a0 r' st0',
      heap st0 !! r0 = Some a0 →
      backtrack c depth r0 st0 = Ok (Some r', st0') →
      ∃ more, heap st0' !! r' = Some (a0 ++ more)) →
  var ∉ keys a →
  ∀ vals st r' st',
    heap st !! r = Some a →
    backtrack_loop c (backtrack c depth) r var vals st = Ok (Some r', st') →
    ∃ more, heap st' !! r' = Some (a ++ more).
Proof.
  intros Hrec Hfresh. induction vals as [|value vals IH]; intros st r' st' Hr Hrun;
    [done|].
  rewrite (backtrack_loop_cons _ _ _ _ _ _ _ a Hr) in Hrun. simpl in Hrun.
  rewrite (dict_set_fresh a var value Hfresh) in Hrun.
  set (st2 := mkSolver (domains st) (heap st ++ [a ++ [(var, value)]])) in *.
  assert (heap st2 !! r = Some a) as Hr2.
  { apply (extends_lookup st); [apply extends_alloc|done]. }
  destruct (consistent c _) as [[|]|e]; [| |done].
  - destruct (backtrack c depth (length (heap st)) st2)
      as [[[r0|] st3]|e] eqn:Hcall; [| |done].
    + injection Hrun as <- <-.
      assert (heap st2 !! length (heap st) = Some (a ++ [(var, value)])) as Hnew.
      { by apply list_lookup_middle. }
      destruct (Hrec _ _ _ _ _ Hnew Hcall) as [more Hmore].
      exists ((var, value) :: more). by rewrite Hmore, <- app_assoc.
    + pose proof (backtrack_spec c _ _ _ _ _ Hcall) as [Hext _].
      apply (IH st3 r' st'); [|done]. by apply (extends_lookup st2).
  - by apply (IH st2 r' st').
Qed.

Lemma backtrack_prefix depth :
  ∀ r st a r' st',
    heap st !! r = Some a →
    backtrack c depth r st = Ok (Some r', st') →
    ∃ more, heap st' !! r' = Some (a ++ more).
Proof.
  induction depth as [|depth IH]; intros r st a r' st' Hr Hrun; [done|].
  simpl in Hrun. unfold bind at 1, deref in Hrun. rewrite Hr in Hrun.
  unfold bind at 1, get_domains in Hrun.
  destruct (length a =? length (domains st)).
  - injection Hrun as <- <-. exists []. by rewrite app_nil_r.
  - apply bind_Ok in Hrun as (var & st1 & Hsel & Hrun).
    apply select_unassigned_variable_Ok_inv in Hsel as (-> & _ & Hfresh).
    apply bind_Ok in Hrun as (vals & st1 & [_ ->]%domain_of_Ok & Hrun).
    by apply (backtrack_loop_prefix depth r var a IH Hfresh vals st r' st').
Qed.
End SearchPrefix.

(** X9.  [backtrack] only adds to the assignment it is given: the
    assignment it returns starts with the entries of the caller's
    assignment, in the same order, followed by the newly chosen ones. *)
Theorem backtrack_extends_assignment (c : Crossword) (depth : nat)
    (assignment : ref) (st : Solver) (a : list (Var * string))
    (r' : ref) (st' : Solver) :
  heap st !! assignment = Some a →
  backtrack c depth assignment st = Ok (Some r', st') →
  ∃ more, heap st' !! r' = Some (a ++ more).
Proof. apply backtrack_prefix. Qed.

Lemma backtrack_extends_assignment_witness :
  ∃ more,
    heap (mkSolver (domains cross_ac)
            [[(cross_x, "CAT")]; [(cross_x, "CAT"); (cross_y, "BALL")]]) !! 1
    = Some ([(cross_x, "CAT")] ++ more).
Proof.
  apply (backtrack_extends_assignment cross 2 0
           (mkSolver (domains cross_ac) [[(cross_x, "CAT")]])
           [(cross_x, "CAT")] 1).
  - reflexivity.
  - reflexivity.
Defined.

(** X10.  [backtrack] is complete: called on a partial assignment that
    some solution of the puzzle extends, with the solution's words still
    in the domains, it does not answer [None]. *)
Theorem backtrack_finds_extension (c : Crossword) (s : list (Var * string))
    (depth : nat) (assignment : ref) (st : Solver) (a : list (Var * string))
    (res : option ref) (st' : Solver) :
  solution c s →
  keys (domains st) ⊆ variables c →
  within (domains st) s →
  heap st !! assignment = Some a →
  a ⊆ s → NoDup (keys a) →
  backtrack c depth assignment st = Ok (res, st') →
  is_Some res.
Proof.
  intros Hsol Hkeys Hin Hr Hsub Hnd Hrun.
  by apply (backtrack_complete c s Hsol (domains st) Hkeys Hin depth
              assignment st a res st').
Qed.

Section SolveComplete.
Variable c : Crossword.

Lemma solve_is_Some s res st' :
  solution c s → solve c (init c) = Ok (res, st') → is_Some res.
Proof.
  intros Hsol. unfold solve.
  intros (u & st1 & Henf & Hrun)%bind_Ok.
  apply bind_Ok in Hrun as (b & st2 & Hac3 & Hrun).
  pose proof (enforce_within c s Hsol _ _ _ (init_within c s Hsol) Henf) as Hin1.
  pose proof (ac3_within c s Hsol _ _ _ Hin1 Hac3) as Hin2.
  apply enforce_node_consistency_shrinks in Henf.
  apply ac3_shrinks in Hac3.
  pose proof (shrinks_trans _ _ _ Henf Hac3) as (Hkeys & _ & _).
  apply bind_Ok in Hrun as (r0 & st3 & [= <- <-] & Hrun).
  apply bind_Ok in Hrun as (ds & st4 & [= <- <-] & Hrun).
  apply (backtrack_complete c s Hsol (domains st2)) with (a := []) in Hrun;
    [done| |done|done| | |apply NoDup_nil_2].
  - by rewrite Hkeys, keys_init.
  - simpl. by apply list_lookup_middle.
  - intros p Hp. by apply elem_of_nil in Hp.
Qed.
End SolveComplete.

Lemma cross_solution : solution cross [(cross_x, "CAT"); (cross_y, "BALL")].
Proof.
  split_and!.
  - split; [by apply (bool_decide_unpack _)|]. done.
  - by apply consistent_satisfies.
  - intros v w [[= -> ->]|[[= -> ->]|[]%elem_of_nil]%elem_of_cons]%elem_of_cons;
      by apply (bool_decide_unpack _).
Qed.

(** X11.  [solve()] is complete: on a well-formed puzzle whose word list
    admits a solution it returns an assignment, and that assignment is a
    solution. *)
Theorem solve_complete (c : Crossword) (s : list (Var * string)) :
  wf_crossword c → solution c s →
  ∃ r st' a, solve c (init c) = Ok (Some r, st') ∧
             heap st' !! r = Some a ∧ solution c a.
Proof.
  intros Hwf Hsol. destruct (solve_Ok c Hwf) as (res & st' & Hrun).
  destruct (solve_is_Some c s res st' Hsol Hrun) as [r ->].
  destruct (solve_returns c r st' Hrun) as (a & Ha & Hsola).
  by exists r, st', a.
Qed.

Lemma solve_complete_witness :
  ∃ r st' a, solve cross (init cross) = Ok (Some r, st') ∧
             heap st' !! r = Some a ∧ solution cross a.
Proof.
  apply (solve_complete cross [(cross_x, "CAT"); (cross_y, "BALL")]).
  - exact cross_wf.
  - exact cross_solution.
Defined.

(** X12.  On a well-formed puzzle [solve()] raises nothing: it returns
    [None] or an assignment, whatever the word list. *)
Theorem solve_total (c : Crossword) :
  wf_crossword c → ∃ res st', solve c (init c) = Ok (res, st').
Proof. apply solve_Ok. Qed.

Lemma solve_total_witness : ∃ res st', solve cross (init cross) = Ok (res, st').
Proof. apply (solve_total cross). exact cross_wf. Defined.

(** X13.  The words [solve()] hands out come from the puzzle's word
    list. *)
Theorem solve_words_from_list (c : Crossword) (r : ref) (st' : Solver) :
  solve c (init c) = Ok (Some r, st') →
  ∃ a, heap st' !! r = Some a ∧ ∀ v w, (v, w) ∈ a → w ∈ words c.
Proof.
  intros (a & Ha & _ & _ & Hwords)%solve_returns. eauto.
Qed.

Lemma solve_words_from_list_witness :
  ∃ a, heap cross_solved !! 2 = Some a ∧ ∀ v w, (v, w) ∈ a → w ∈ words cross.
Proof. apply (solve_words_from_list cross 2 cross_solved). reflexivity. Defined.

(** X14.  Node consistency prunes no word that a solution uses: if every
    word of a solution is in the domain of its variable before
    [enforce_node_consistency], it still is afterwards. *)
Theorem enforce_node_consistency_keeps_solutions (c : Crossword)
    (s : list (Var * string)) (st : Solver) (u : unit) (st' : Solver) :
  solution c s →
  within (domains st) s →
  enforce_node_consistency st = Ok (u, st') →
  within (domains st') s.
Proof. intros Hsol. by apply (enforce_within c s Hsol). Qed.

Lemma enforce_node_consistency_keeps_solutions_witness :
  within (domains cross_nc) [(cross_x, "CAT"); (cross_y, "BALL")].
Proof.
  apply (enforce_node_consistency_keeps_solutions cross
           [(cross_x, "CAT"); (cross_y, "BALL")] (init cross) tt cross_nc).
  - exact cross_solution.
  - exact (init_within cross _ cross_solution).
  - reflexivity.
Defined.

(** X15.  [ac3()] prunes no word that a solution uses. *)
Theorem ac3_keeps_solutions (c : Crossword) (s : list (Var * string))
    (st : Solver) (res : option bool) (st' : Solver) :
  solution c s →
  within (domains st) s →
  ac3 c None st = Ok (res, st') →
  within (domains st') s.
Proof. intros Hsol. by apply (ac3_within c s Hsol). Qed.

Lemma cross_nc_within : within (domains cross_nc) [(cross_x, "CAT"); (cross_y, "BALL")].
Proof.
  apply (enforce_within cross _ cross_solution (init cross) tt cross_nc);
    [exact (init_within cross _ cross_solution)|reflexivity].
Qed.

Lemma ac3_keeps_solutions_witness :
  within (domains cross_ac) [(cross_x, "CAT"); (cross_y, "BALL")].
Proof.
  apply (ac3_keeps_solutions cross [(cross_x, "CAT"); (cross_y, "BALL")]
           cross_nc (Some true) cross_ac).
  - exact cross_solution.
  - exact cross_nc_within.
  - reflexivity.
Defined.

(** X16.  [ac3] answers [False] only when a domain is really empty. *)
Theorem ac3_False_empty_domain (c : Crossword)
    (arcs : option (list (Var * Var))) (st st' : Solver) :
  ac3 c arcs st = Ok (Some false, st') →
  ∃ x, dict_get (domains st') x = Some [].
Proof.
  unfold ac3. intros (queue & st1 & Hq & Hrest)%bind_Ok.
  destruct queue as [[|[x y] queue']|]; [done| |done].
  apply bind_Ok in Hrest as (revised & st2 & Hrev & Hrest).
  destruct revised; [|done].
  apply bind_Ok in Hrest as (dx & st3 & [Hdx ->]%domain_of_Ok & Hrest).
  destruct dx as [|w dx]; [|done]. injection Hrest as <-. eauto.
Qed.


Lemma cross_ac_within : within (domains cross_ac) [(cross_x, "CAT"); (cross_y, "BALL")].
Proof.
  apply (ac3_within cross _ cross_solution cross_nc (Some true) cross_ac);
    [exact cross_nc_within|reflexivity].
Qed.

Lemma backtrack_finds_extension_witness : is_Some (Some 2).
Proof.
  apply (backtrack_finds_extension cross [(cross_x, "CAT"); (cross_y, "BALL")]
           3 0 (mkSolver (domains cross_ac) [[]]) [] (Some 2) cross_solved).
  - exact cross_solution.
  - by apply (bool_decide_unpack _).
  - exact cross_ac_within.
  - reflexivity.
  - by apply (bool_decide_unpack _).
  - by apply (bool_decide_unpack _).
  - reflexivity.
Defined.

Lemma ac3_False_empty_domain_witness :
  ∃ x, dict_get (domains (mkSolver [(cross_x, []); (cross_y, ["BALL"])] [])) x
       = Some [].
Proof.
  apply (ac3_False_empty_domain cross None
           (mkSolver [(cross_x, ["DOG"]); (cross_y, ["BALL"])] [])).
  reflexivity.
Defined.

(** X17.  [revise(x, y)] for a neighbour [y] of [x] prunes no word that a
    solution uses. *)
Theorem revise_keeps_solutions (c : Crossword) (s : list (Var * string))
    (x y : Var) (st : Solver) (b : bool) (st' : Solver) :
  solution c s →
  y ∈ neighbors c x →
  within (domains st) s →
  revise c x y st = Ok (b, st') →
  within (domains st') s.
Proof. intros Hsol. by apply (revise_within c s Hsol). Qed.

Lemma revise_keeps_solutions_witness :
  within (domains cross_ac) [(cross_x, "CAT"); (cross_y, "BALL")].
Proof.
  apply (revise_keeps_solutions cross [(cross_x, "CAT"); (cross_y, "BALL")]
           cross_x cross_y cross_nc true cross_ac).
  - exact cross_solution.
  - by apply (bool_decide_unpack _).
  - exact cross_nc_within.
  - reflexivity.
Defined.

(** ** Node consistency is idempotent *)

Lemma dict_ext {K V} `{EqDecision K} (d d' : list (K * V)) :
  NoDup (keys d) → keys d = keys d' →
  (∀ k, dict_get d k = dict_get d' k) → d = d'.
Proof.
  unfold keys. revert d'. induction d as [|[k v] d IH]; intros [|[k' v'] d'];
    csimpl; intros Hnd Hkeys Hget; try done.
  injection Hkeys as <- Hkeys. apply NoDup_cons in Hnd as [Hk Hnd].
  pose proof (Hget k) as Hv. simpl in Hv. rewrite !decide_True in Hv by done.
  injection Hv as <-. f_equal. apply IH; [done..|].
  intros k0. specialize (Hget k0). simpl in Hget.
  destruct (decide (k0 = k)) as [->|Hne]; [|done].
  pose proof (proj2 (dict_get_None d k) Hk) as ->.
  symmetry. apply dict_get_None. unfold keys. by rewrite <- Hkeys.
Qed.

(** X18.  [enforce_node_consistency] is idempotent: run on the solver it
    has just pruned, it returns normally and changes nothing. *)
Theorem enforce_node_consistency_idempotent (st : Solver) (u : unit)
    (st' : Solver) :
  domains_wf st →
  enforce_node_consistency st = Ok (u, st') →
  enforce_node_consistency st' = Ok (tt, st').
Proof.
  intros Hwf Hrun.
  destruct (enforce_node_consistency_spec st Hwf) as (st1 & Hrun1 & Hh1 & Hk1 & Hg1).
  assert (st1 = st') as -> by congruence.
  assert (domains_wf st') as Hwf'.
  { destruct Hwf as [Hnd Hsets]. split; [by rewrite Hk1|].
    intros v ws. rewrite Hg1.
    destruct (dict_get (domains st) v) as [ws0|] eqn:Hws0; [|done].
    intros [= <-]. apply NoDup_filter. by apply (Hsets v). }
  destruct (enforce_node_consistency_spec st' Hwf') as (st2 & Hrun2 & Hh2 & Hk2 & Hg2).
  rewrite Hrun2. do 2 f_equal.
  destruct st2 as [d2 h2], st' as [d' h']. simpl in *. f_equal; [|done].
  apply dict_ext; [rewrite Hk2; apply Hwf'|done|].
  intros v. rewrite Hg2, Hg1.
  destruct (dict_get (domains st) v) as [ws0|]; [|done]. simpl. f_equal.
  apply list_filter_filter_l. done.
Qed.

Lemma enforce_node_consistency_idempotent_witness :
  enforce_node_consistency cross_nc = Ok (tt, cross_nc).
Proof.
  apply (enforce_node_consistency_idempotent (init cross) tt cross_nc).
  - exact (init_wf cross cross_wf).
  - reflexivity.
Defined.

(** ** [assignment_complete] and the size test of [backtrack] *)

(** X19.  For an assignment to distinct variables of [self.domains],
    [assignment_complete] answers exactly what the size test at the
    head of [backtrack] answers, [len(assignment) == len(self.domains)];
    it changes nothing. *)
Theorem assignment_complete_size (a : list (Var * string)) (st : Solver) :
  NoDup (keys (domains st)) → NoDup (keys a) → keys a ⊆ keys (domains st) →
  assignment_complete a st = Ok (length a =? length (domains st), st).
Proof.
  intros Hds Ha Hsub. unfold assignment_complete, bind, get_domains, ret.
  do 2 f_equal.
  pose proof (NoDup_subseteq_length _ _ Ha Hsub) as Hle.
  rewrite !keys_length in Hle.
  destruct (length a =? length (domains st)) eqn:Hlen.
  - apply Nat.eqb_eq in Hlen. apply forallb_forall.
    intros v Hv%list_elem_of_In. apply dict_mem_true.
    assert (keys a ≡ₚ keys (domains st)) as ->; [|done].
    apply submseteq_length_Permutation; [by apply NoDup_submseteq|].
    rewrite !keys_length. lia.
  - apply Nat.eqb_neq in Hlen. apply not_true_is_false. intros Hall.
    rewrite forallb_forall in Hall.
    assert (keys (domains st) ⊆ keys a) as Hsup.
    { intros v Hv. by apply dict_mem_true, Hall, list_elem_of_In. }
    pose proof (NoDup_subseteq_length _ _ Hds Hsup) as Hge.
    rewrite !keys_length in Hge. lia.
Qed.

Lemma assignment_complete_size_witness :
  assignment_complete [(cross_x, "CAT")] cross_ac
  = Ok (length [(cross_x, "CAT")] =? length (domains cross_ac), cross_ac).
Proof.
  apply (assignment_complete_size [(cross_x, "CAT")] cross_ac);
    by apply (bool_decide_unpack _).
Defined.

(** ** The shape of [order_domain_values]'s answer *)

Lemma count_neighbours_frame (c : Crossword) (a : list (Var * string))
    (var : Var) (w : string) (ns : list Var) :
  ∀ removed st n st',
    count_neighbours c a var w ns removed st = Ok (n, st') → st' = st.
Proof.
  induction ns as [|n0 ns IH]; simpl; intros removed st n st'.
  - by intros [= _ <-].
  - destruct (dict_mem a n0); [by apply IH|].
    destruct (overlaps c var n0) as [[ox oy]|]; [|done].
    intros (dn & st1 & [_ ->]%domain_of_Ok & Hrest)%bind_Ok.
    apply bind_Ok in Hrest as (removed' & st2 & [_ ->]%lift_Ok & Hrest).
    by eapply IH.
Qed.

(** X20.  Whatever the domain, [order_domain_values] hands back at most
    one word: [None] for an empty domain, otherwise the list of the first
    word of the domain alone; it changes nothing, and it cannot return
    for a variable outside [self.domains]. *)
Theorem order_domain_values_shape (c : Crossword) (var : Var)
    (a : list (Var * string)) (st : Solver) (res : option (list string))
    (st' : Solver) :
  order_domain_values c var a st = Ok (res, st') →
  st' = st ∧
  ∃ dv, dict_get (domains st) var = Some dv ∧
        res = match dv with [] => None | w :: _ => Some [w] end.
Proof.
  unfold order_domain_values.
  intros (dv & st1 & [Hdv ->]%domain_of_Ok & Hrest)%bind_Ok.
  destruct dv as [|w dv].
  - injection Hrest as <- <-. split; [done|]. by exists [].
  - apply bind_Ok in Hrest as (removed & st2 & ->%count_neighbours_frame & Hrest).
    injection Hrest as <- <-. split; [done|]. by exists (w :: dv).
Qed.

Lemma order_domain_values_shape_witness :
  cross_nc = cross_nc ∧
  ∃ dv, dict_get (domains cross_nc) cross_x = Some dv ∧
        Some ["CAT"] = match dv with [] => None | w :: _ => Some [w] end.
Proof.
  apply (order_domain_values_shape cross cross_x [] cross_nc (Some ["CAT"]) cross_nc).
  reflexivity.
Defined.

(** ** The letter grid *)

Section LetterGrid.
Implicit Types (g : list (list (option ascii))) (a : list (Var * string)).

Lemma grid_set_Ok height width g i j ch g' :
  has_size height width g →
  grid_set g i j ch = Ok g' →
  i < height ∧ j < width ∧ has_size height width g' ∧
  ∀ i' j', letter_at g' i' j' =
           if decide ((i', j') = (i, j)) then Some (Some ch) else letter_at g i' j'.
Proof.
  intros [Hlen Hrows]. unfold grid_set.
  destruct (g !! i) as [row|] eqn:Hrow; [|done].
  case_decide as Hj; [|done]. intros [= <-].
  pose proof (lookup_lt_Some _ _ _ Hrow) as Hi.
  assert (length row = width) as Hw.
  { rewrite Forall_forall in Hrows. apply Hrows. by eapply list_elem_of_lookup_2. }
  split_and!; [lia..| |].
  - split; [by rewrite length_insert|].
    apply Forall_insert; [done|]. by rewrite length_insert.
  - intros i' j'. unfold letter_at.
    destruct (decide (i' = i)) as [->|Hne].
    + rewrite list_lookup_insert_eq by done.
      destruct (decide (j' = j)) as [->|Hnej].
      * rewrite decide_True by done. by rewrite list_lookup_insert_eq.
      * rewrite decide_False by congruence. rewrite Hrow.
        by rewrite list_lookup_insert_ne.
    + rewrite list_lookup_insert_ne by done. by rewrite decide_False by congruence.
Qed.

Lemma grid_set_in_range height width g i j ch :
  has_size height width g → i < height → j < width →
  ∃ g', grid_set g i j ch = Ok g'.
Proof.
  intros [Hlen Hrows] Hi Hj. unfold grid_set.
  destruct (lookup_lt_is_Some_2 g i) as [row Hrow]; [lia|]. rewrite Hrow.
  assert (length row = width) as Hw.
  { rewrite Forall_forall in Hrows. apply Hrows. by eapply list_elem_of_lookup_2. }
  rewrite decide_True by lia. eauto.
Qed.

Lemma grid_set_Raise g i j ch e : grid_set g i j ch = Raise e → e = IndexError.
Proof.
  unfold grid_set. destruct (g !! i); [case_decide|]; congruence.
Qed.

Lemma get_Some_lt (word : string) (k : nat) :
  is_Some (String.get k word) → k < String.length word.
Proof.
  revert k. induction word as [|ch0 word IH]; simpl; intros k [ch Hch]; [done|].
  destruct k as [|k]; [lia|]. apply ->Nat.succ_lt_mono. apply IH. eauto.
Qed.

Lemma elem_of_seq_0 (n k : nat) : k ∈ seq 0 n ↔ k < n.
Proof. rewrite list_elem_of_In, in_seq. lia. Qed.

(** The letters of one word, placed at the indices [ks]. *)
Lemma place_letters_Ok height width v word ks :
  ∀ g g',
    has_size height width g →
    place_letters v word ks g = Ok g' →
    has_size height width g' ∧
    (∀ k, k ∈ ks → (cell v k).1 < height ∧ (cell v k).2 < width) ∧
    (∀ i j, (∀ k, k ∈ ks → cell v k ≠ (i, j)) → letter_at g' i j = letter_at g i j) ∧
    (∀ i j, (∃ k, k ∈ ks ∧ cell v k = (i, j)) →
            ∃ k ch, k ∈ ks ∧ cell v k = (i, j) ∧ String.get k word = Some ch ∧
                    letter_at g' i j = Some (Some ch)).
Proof.
  induction ks as [|k ks IH]; cbn [place_letters]; intros g g' Hsize.
  - intros [= <-]. split_and!; [done|..].
    + intros k Hk. by apply elem_of_nil in Hk.
    + done.
    + intros i j (k & Hk & _). by apply elem_of_nil in Hk.
  - unfold str_index. destruct (String.get k word) as [ch|] eqn:Hch; [|done].
    destruct (grid_set g _ _ ch) as [g1|e] eqn:Hset; [|done].
    intros Hrest.
    destruct (grid_set_Ok _ _ _ _ _ _ _ Hsize Hset) as (Hi & Hj & Hsize1 & Hat1).
    destruct (IH g1 g' Hsize1 Hrest) as (Hsize' & Hrange & Hother & Hwritten).
    split_and!; [done|..].
    + intros k0 [->|Hk0]%elem_of_cons; [by split|auto].
    + intros i j Hfree. rewrite Hother.
      * rewrite Hat1. rewrite decide_False; [done|].
        intros Heq. apply (Hfree k); [apply elem_of_cons; by left|].
        rewrite Heq. by destruct (cell v k).
      * intros k0 Hk0. apply Hfree, elem_of_cons. by right.
    + intros i j Hex.
      destruct (decide (Exists (λ k0, cell v k0 = (i, j)) ks)) as [Hin|Hout].
      * apply Exists_exists in Hin.
        destruct (Hwritten i j Hin) as (k0 & ch0 & Hk0 & ? & ? & ?).
        exists k0, ch0. split_and!; [|done..]. apply elem_of_cons. by right.
      * assert (∀ k0, k0 ∈ ks → cell v k0 ≠ (i, j)) as Hfree.
        { intros k0 Hk0 Heq. apply Hout, Exists_exists. eauto. }
        destruct Hex as (k0 & [->|Hk0]%elem_of_cons & Hcell);
          [|by apply Hfree in Hcell].
        exists k, ch. split_and!; [apply elem_of_cons; by left|done..|].
        rewrite (Hother i j Hfree), Hat1. rewrite decide_True; [done|].
        rewrite <- Hcell. by destruct (cell v k).
Qed.

Lemma place_letters_in_range height width v word ks :
  ∀ g,
    has_size height width g →
    (∀ k, k ∈ ks → (cell v k).1 < height ∧ (cell v k).2 < width ∧
                   k < String.length word) →
    ∃ g', place_letters v word ks g = Ok g'.
Proof.
  induction ks as [|k ks IH]; cbn [place_letters]; intros g Hsize Hrange; [eauto|].
  destruct (Hrange k) as (Hi & Hj & Hk); [apply elem_of_cons; by left|].
  destruct (str_index_Ok word k Hk) as [ch ->].
  destruct (grid_set_in_range _ _ g _ _ ch Hsize Hi Hj) as [g1 Hset].
  rewrite Hset. apply IH.
  - by destruct (grid_set_Ok _ _ _ _ _ _ _ Hsize Hset) as (_ & _ & ? & _).
  - intros k0 Hk0. apply Hrange, elem_of_cons. by right.
Qed.

Lemma place_letters_Raise v word ks :
  ∀ g e, (∀ k, k ∈ ks → k < String.length word) →
         place_letters v word ks g = Raise e → e = IndexError.
Proof.
  induction ks as [|k ks IH]; cbn [place_letters]; intros g e Hks; [done|].
  destruct (str_index_Ok word k) as [ch ->]; [apply Hks, elem_of_cons; by left|].
  destruct (grid_set g _ _ ch) as [g1|e1] eqn:Hset.
  - apply IH. intros k0 Hk0. apply Hks, elem_of_cons. by right.
  - intros [= <-]. by eapply grid_set_Raise.
Qed.

Lemma writes_cons v word a i j ch :
  writes ((v, word) :: a) i j ch ↔
  (∃ k, String.get k word = Some ch ∧ cell v k = (i, j)) ∨ writes a i j ch.
Proof.
  unfold writes. split.
  - intros (v0 & word0 & k & [[= -> ->]|Hin]%elem_of_cons & Hch & Hcell).
    + left. eauto.
    + right. by exists v0, word0, k.
  - intros [(k & Hch & Hcell)|(v0 & word0 & k & Hin & Hch & Hcell)].
    + exists v, word, k. split; [apply elem_of_cons; by left|done].
    + exists v0, word0, k. split; [apply elem_of_cons; by right|done].
Qed.

Lemma word_covers v word i j :
  (∃ k, k ∈ seq 0 (String.length word) ∧ cell v k = (i, j)) ↔
  ∃ k ch, String.get k word = Some ch ∧ cell v k = (i, j).
Proof.
  split.
  - intros (k & Hk%elem_of_seq_0 & Hcell).
    destruct (get_lt word k Hk) as [ch Hch]. eauto.
  - intros (k & ch & Hch & Hcell). exists k. split; [|done].
    apply elem_of_seq_0, get_Some_lt. eauto.
Qed.

Lemma covers_writes a i j : covers a i j ↔ ∃ ch, writes a i j ch.
Proof.
  unfold covers. rewrite Exists_exists. split.
  - intros ([v word] & Hin & Hex). simpl in Hex.
    apply Exists_exists, word_covers in Hex as (k & ch & Hch & Hcell).
    exists ch, v, word, k. done.
  - intros (ch & v & word & k & Hin & Hch & Hcell).
    exists (v, word). split; [done|]. simpl.
    apply Exists_exists, word_covers. eauto.
Qed.

Lemma place_words_Ok height width a :
  ∀ g g',
    has_size height width g →
    place_words a g = Ok g' →
    has_size height width g' ∧
    (∀ i j ch, writes a i j ch → i < height ∧ j < width) ∧
    (∀ i j, (∀ ch, ¬ writes a i j ch) → letter_at g' i j = letter_at g i j) ∧
    (∀ i j ch, writes a i j ch →
               ∃ ch', writes a i j ch' ∧ letter_at g' i j = Some (Some ch')).
Proof.
  induction a as [|[v word] a IH]; simpl; intros g g' Hsize.
  - intros [= <-]. split_and!; [done|..].
    + intros i j ch (? & ? & ? & Hin & _). by apply elem_of_nil in Hin.
    + done.
    + intros i j ch (? & ? & ? & Hin & _). by apply elem_of_nil in Hin.
  - destruct (place_letters v word _ g) as [g1|e] eqn:Hword; [|done].
    intros Hrest.
    destruct (place_letters_Ok _ _ _ _ _ _ _ Hsize Hword)
      as (Hsize1 & Hrange1 & Hother1 & Hwritten1).
    destruct (IH g1 g' Hsize1 Hrest) as (Hsize' & Hrange & Hother & Hwritten).
    split_and!; [done|..].
    + intros i j ch [(k & Hch & Hcell)|Hw]%writes_cons; [|by eapply Hrange].
      destruct (Hrange1 k) as (Hi & Hj).
      { apply elem_of_seq_0, get_Some_lt. eauto. }
      rewrite Hcell in Hi, Hj. done.
    + intros i j Hfree. rewrite Hother, Hother1; [done| |].
      * intros k Hk Hcell.
        destruct (proj1 (word_covers v word i j)) as (k0 & ch & Hch & Hcell0);
          [eauto|].
        apply (Hfree ch), writes_cons. left. eauto.
      * intros ch Hw. apply (Hfree ch), writes_cons. by right.
    + intros i j ch Hw.
      destruct (decide (covers a i j)) as [Hcov|Hfree].
      * apply covers_writes in Hcov as [ch1 Hw1].
        destruct (Hwritten i j ch1 Hw1) as (ch' & Hw' & Hat).
        exists ch'. split; [|done]. apply writes_cons. by right.
      * assert (∀ ch0, ¬ writes a i j ch0) as Hfree'.
        { intros ch0 Hw0. apply Hfree, covers_writes. eauto. }
        apply writes_cons in Hw as [(k & Hch & Hcell)|Hw];
          [|by apply Hfree' in Hw].
        destruct (Hwritten1 i j) as (k0 & ch0 & _ & Hcell0 & Hch0 & Hat).
        { apply word_covers. eauto. }
        exists ch0. split; [apply writes_cons; left; eauto|].
        by rewrite (Hother i j Hfree').
Qed.

Lemma place_words_in_range height width a :
  ∀ g,
    has_size height width g →
    (∀ i j ch, writes a i j ch → i < height ∧ j < width) →
    ∃ g', place_words a g = Ok g'.
Proof.
  induction a as [|[v word] a IH]; simpl; intros g Hsize Hrange; [eauto|].
  destruct (place_letters_in_range height width v word
              (seq 0 (String.length word)) g Hsize) as [g1 Hword].
  { intros k Hk%elem_of_seq_0. destruct (get_lt word k Hk) as [ch Hch].
    destruct (Hrange (cell v k).1 (cell v k).2 ch) as [Hi Hj]; [|done].
    apply writes_cons. left. exists k. split; [done|]. by destruct (cell v k). }
  rewrite Hword. apply IH.
  - by destruct (place_letters_Ok _ _ _ _ _ _ _ Hsize Hword) as (? & _).
  - intros i j ch Hw. apply (Hrange i j ch), writes_cons. by right.
Qed.

Lemma place_words_Raise a :
  ∀ g e, place_words a g = Raise e → e = IndexError.
Proof.
  induction a as [|[v word] a IH]; simpl; intros g e; [done|].
  destruct (place_letters v word _ g) as [g1|e1] eqn:Hword; [by apply IH|].
  intros [= <-]. eapply place_letters_Raise; [|done].
  intros k. apply elem_of_seq_0.
Qed.

Lemma blank_has_size height width :
  has_size height width (replicate height (replicate width None)).
Proof.
  split; [apply length_replicate|].
  apply Forall_replicate, length_replicate.
Qed.

Lemma blank_letter_at height width i j :
  i < height → j < width →
  letter_at (replicate height (replicate width (None : option ascii))) i j
  = Some None.
Proof.
  intros Hi Hj. unfold letter_at.
  rewrite lookup_replicate_2 by done. by apply lookup_replicate_2.
Qed.
End LetterGrid.

(** X21.  The grid [letter_grid] returns has the puzzle's size:
    [height] rows of [width] cells. *)
Theorem letter_grid_size (height width : nat) (a : list (Var * string))
    (g : list (list (option ascii))) :
  letter_grid height width a = Ok g → has_size height width g.
Proof.
  intros Hrun.
  by destruct (place_words_Ok height width a _ g (blank_has_size _ _) Hrun).
Qed.

(** X22.  [letter_grid] shows every assigned word in its slot: when
    slots that share a cell carry the same letter there, the cell of
    the [k]-th letter of each assigned word holds that letter. *)
Theorem letter_grid_shows_words (height width : nat) (a : list (Var * string))
    (g : list (list (option ascii))) (v : Var) (word : string) (k : nat)
    (ch : ascii) :
  letter_grid height width a = Ok g →
  letters_agree a →
  (v, word) ∈ a → String.get k word = Some ch →
  letter_at g (cell v k).1 (cell v k).2 = Some (Some ch).
Proof.
  intros Hrun Hagree Hin Hch.
  destruct (place_words_Ok height width a _ g (blank_has_size _ _) Hrun)
    as (_ & _ & _ & Hwritten).
  assert (writes a (cell v k).1 (cell v k).2 ch) as Hw.
  { exists v, word, k. split_and!; [done..|]. by destruct (cell v k). }
  destruct (Hwritten _ _ _ Hw) as (ch' & Hw' & ->).
  by rewrite (Hagree _ _ _ _ Hw Hw').
Qed.

(** X23.  A cell of the grid that no assigned slot runs over is left
    [None] by [letter_grid]. *)
Theorem letter_grid_blank (height width : nat) (a : list (Var * string))
    (g : list (list (option ascii))) (i j : nat) :
  letter_grid height width a = Ok g →
  i < height → j < width →
  (∀ ch, ¬ writes a i j ch) →
  letter_at g i j = Some None.
Proof.
  intros Hrun Hi Hj Hfree.
  destruct (place_words_Ok height width a _ g (blank_has_size _ _) Hrun)
    as (_ & _ & Hother & _).
  rewrite (Hother i j Hfree). by apply blank_letter_at.
Qed.

(** X24.  [letter_grid] returns a grid exactly when every letter of the
    assignment falls on a cell of the grid, and the only exception it
    raises is [IndexError]. *)
Theorem letter_grid_in_range (height width : nat) (a : list (Var * string)) :
  ((∃ g, letter_grid height width a = Ok g) ↔
   ∀ i j ch, writes a i j ch → i < height ∧ j < width) ∧
  ∀ e, letter_grid height width a = Raise e → e = IndexError.
Proof.
  split; [split|].
  - intros [g Hrun].
    by destruct (place_words_Ok height width a _ g (blank_has_size _ _) Hrun)
      as (_ & ? & _).
  - apply place_words_in_range, blank_has_size.
  - intros e. apply place_words_Raise.
Qed.

Lemma cross_filled_writes i j ch :
  writes cross_filled i j ch →
  (i, j, ch) ∈ [(1, 0, "C"%char); (1, 1, "A"%char); (1, 2, "T"%char);
                (0, 1, "B"%char); (1, 1, "A"%char); (2, 1, "L"%char);
                (3, 1, "L"%char)].
Proof.
  intros (v & word & k & Hin & Hch & Hcell).
  apply elem_of_cons in Hin as [[= -> ->]|Hin];
    [|apply elem_of_cons in Hin as [[= -> ->]|Hin];
      [|by apply elem_of_nil in Hin]].
  - destruct k as [|[|[|k]]]; simpl in Hch; try done;
      injection Hch as <-; injection Hcell as <- <-;
      by apply (bool_decide_unpack _).
  - destruct k as [|[|[|[|k]]]]; simpl in Hch; try done;
      injection Hch as <-; injection Hcell as <- <-;
      by apply (bool_decide_unpack _).
Qed.

Lemma cross_filled_agree : letters_agree cross_filled.
Proof.
  intros i j ch ch' Hw%cross_filled_writes Hw'%cross_filled_writes.
  set (l := [(1, 0, "C"%char); (1, 1, "A"%char); (1, 2, "T"%char);
             (0, 1, "B"%char); (1, 1, "A"%char); (2, 1, "L"%char);
             (3, 1, "L"%char)]) in *.
  assert (Forall (λ p : nat * nat * ascii,
            Forall (λ q : nat * nat * ascii, p.1 = q.1 → p.2 = q.2) l) l) as Hall.
  { by apply (bool_decide_unpack _). }
  rewrite Forall_forall in Hall. specialize (Hall _ Hw).
  rewrite Forall_forall in Hall. by apply (Hall _ Hw').
Qed.

Lemma cross_filled_corner_free ch : ¬ writes cross_filled 0 0 ch.
Proof.
  intros Hw%cross_filled_writes.
  repeat (apply elem_of_cons in Hw as [[=]|Hw]). by apply elem_of_nil in Hw.
Qed.

Lemma letter_grid_size_witness : has_size 4 3 cross_grid.
Proof. apply (letter_grid_size 4 3 cross_filled cross_grid). reflexivity. Defined.

Lemma letter_grid_shows_words_witness :
  letter_at cross_grid (cell cross_y 2).1 (cell cross_y 2).2 = Some (Some "L"%char).
Proof.
  apply (letter_grid_shows_words 4 3 cross_filled cross_grid cross_y "BALL" 2).
  - reflexivity.
  - exact cross_filled_agree.
  - by apply (bool_decide_unpack _).
  - reflexivity.
Defined.

Lemma letter_grid_blank_witness : letter_at cross_grid 0 0 = Some None.
Proof.
  apply (letter_grid_blank 4 3 cross_filled cross_grid 0 0).
  - reflexivity.
  - by apply (bool_decide_unpack _).
  - by apply (bool_decide_unpack _).
  - exact cross_filled_corner_free.
Defined.


(** ** [ac3] and [backtrack] return normally *)

Lemma cross_nc_spec : domains_wf cross_nc ∧ node_consistent cross_nc.
Proof.
  destruct (enforce_node_consistency_spec (init cross) (init_wf cross cross_wf))
    as (st' & Hrun & _ & Hkeys & Hget).
  assert (enforce_node_consistency (init cross) = Ok (tt, cross_nc)) as Hrun'
    by reflexivity.
  assert (st' = cross_nc) as -> by congruence.
  split; [split|].
  - by apply (bool_decide_unpack _).
  - intros v ws. rewrite Hget.
    destruct (dict_get (domains (init cross)) v) as [ws0|] eqn:Hws0; [|done].
    intros [= <-]. apply NoDup_filter.
    apply dict_get_init in Hws0 as ->. apply cross_wf.
  - intros v ws w. rewrite Hget.
    destruct (dict_get (domains (init cross)) v) as [ws0|]; [|done].
    intros [= <-] Hw. by apply list_elem_of_filter in Hw as [? _].
Qed.

(** X25.  After node consistency, [ac3()] on a well-formed puzzle
    raises nothing: it answers [True], [False] or [None]. *)
Theorem ac3_default_returns (c : Crossword) (st : Solver) :
  wf_crossword c →
  keys (domains st) = variables c →
  domains_wf st → node_consistent st →
  ∃ res st', ac3 c None st = Ok (res, st').
Proof. apply ac3_None_Ok. Qed.

Lemma ac3_default_returns_witness : ∃ res st', ac3 cross None cross_nc = Ok (res, st').
Proof.
  apply (ac3_default_returns cross cross_nc).
  - exact cross_wf.
  - reflexivity.
  - exact (proj1 cross_nc_spec).
  - exact (proj2 cross_nc_spec).
Defined.

(** X26.  The search nests no deeper than one call per variable still
    without a word, plus the call that finds the assignment complete:
    on a well-formed puzzle, from an assignment to distinct variables of
    the solver, that depth is enough for [backtrack] to answer [None] or
    an assignment without raising. *)
Theorem backtrack_returns (c : Crossword) (depth : nat) (assignment : ref)
    (st : Solver) (a : list (Var * string)) :
  wf_crossword c →
  keys (domains st) ⊆ variables c → NoDup (keys (domains st)) →
  heap st !! assignment = Some a →
  NoDup (keys a) → keys a ⊆ keys (domains st) →
  length (domains st) - length a < depth →
  ∃ res st', backtrack c depth assignment st = Ok (res, st').
Proof.
  intros Hwf Hkeys Hnd Hr Ha Hsub Hdepth.
  by apply (backtrack_Ok c Hwf (domains st) Hkeys Hnd depth assignment st a).
Qed.

Lemma backtrack_returns_witness :
  ∃ res st', backtrack cross 3 0 (mkSolver (domains cross_ac) [[]]) = Ok (res, st').
Proof.
  apply (backtrack_returns cross 3 0 (mkSolver (domains cross_ac) [[]]) []).
  - exact cross_wf.
  - by apply (bool_decide_unpack _).
  - by apply (bool_decide_unpack _).
  - reflexivity.
  - by apply (bool_decide_unpack _).
  - by apply (bool_decide_unpack _).
  - by apply (bool_decide_unpack _).
Defined.
